(** * Emitter event source and file gateway configuration

    A shallow embedding of
    - [eventsources/sources/emitter/start.go] (the [StartListening] entry point
      of the Emitter event source and its per-message callback), and
    - [gateways/core/file/config.go] ([parseEventSource]),
    together with the parts of [encoding/json] that the callback relies on
    when it serialises an event.

    Go [string]s are modelled as [string], byte slices as [list byte]. *)

From Stdlib Require Import List Strings.String Strings.Ascii Strings.Byte.
From Stdlib Require Import Bool NArith ZArith Arith Lia.
From Stdlib Require Import Permutation Sorting.Sorted.
Import ListNotations.

Local Open Scope string_scope.
Local Open Scope list_scope.

(** ** Errors

    [errors.New] and [errors.Wrap]/[errors.Wrapf] of [github.com/pkg/errors]:
    a wrapped error keeps its cause and prefixes its message. *)

Inductive error : Type :=
| errors_New (msg : string)
| errors_Wrap (cause : error) (msg : string).

Fixpoint Error (e : error) : string :=
  match e with
  | errors_New msg => msg
  | errors_Wrap cause msg => (msg ++ ": " ++ Error cause)%string
  end.

Definition Cause (e : error) : option error :=
  match e with
  | errors_New _ => None
  | errors_Wrap cause _ => Some cause
  end.

(** [byte(n)] for [n] below 256 *)
Definition byte_of_N (n : N) : byte :=
  match Byte.of_N n with Some b => b | None => x00 end.

(** ** encoding/json: the scanner ([scanner.go]) *)

Module JSON.

Inductive scan_op : Type :=
| scanContinue | scanBeginLiteral | scanBeginObject | scanObjectKey
| scanObjectValue | scanEndObject | scanBeginArray | scanArrayValue
| scanEndArray | scanSkipSpace
| scanEnd | scanError.

(** [v >= scanSkipSpace] *)
Definition ge_scanSkipSpace (v : scan_op) : bool :=
  match v with
  | scanSkipSpace | scanEnd | scanError => true
  | _ => false
  end.

Definition is_scanError (v : scan_op) : bool :=
  match v with scanError => true | _ => false end.

Inductive parse_state : Type :=
| parseObjectKey | parseObjectValue | parseArrayValue.

(** The Go scanner stores its current step function in a field; here the
    step functions are named by a constructor each. *)
Inductive stepfn : Type :=
| stepBeginValue | stepBeginValueOrEmpty | stepBeginStringOrEmpty
| stepBeginString | stepEndValue | stepEndTop
| stepInString | stepInStringEsc | stepInStringEscU | stepInStringEscU1
| stepInStringEscU12 | stepInStringEscU123
| stepNeg | step1 | step0 | stepDot | stepDot0 | stepE | stepESign | stepE0
| stepT | stepTr | stepTru | stepF | stepFa | stepFal | stepFals
| stepN | stepNu | stepNul
| stepError.

(** The parse-state stack has its top at the head of the list. *)
Record scanner : Type := mkScanner {
  step : stepfn;
  endTop : bool;
  parseState : list parse_state;
  err : option string
}.

Definition maxNestingDepth : N := 10000.

Definition reset : scanner :=
  mkScanner stepBeginValue false [] None.

Definition with_step (s : scanner) (f : stepfn) : scanner :=
  mkScanner f (endTop s) (parseState s) (err s).

Definition set_top (s : scanner) (p : parse_state) : scanner :=
  mkScanner (step s) (endTop s)
            (match parseState s with [] => [] | _ :: r => p :: r end) (err s).

(** [s.error(c, context)] *)
Definition scan_error (s : scanner) (context : string) : scanner * scan_op :=
  (mkScanner stepError (endTop s) (parseState s)
             (Some ("invalid character " ++ context)%string), scanError).

Definition isSpace (c : byte) : bool :=
  match c with
  | x20 | x09 | x0d | x0a => true
  | _ => false
  end.

Definition isDigit (c : byte) : bool :=
  match c with
  | x30 | x31 | x32 | x33 | x34 | x35 | x36 | x37 | x38 | x39 => true
  | _ => false
  end.

Definition isDigit19 (c : byte) : bool :=
  match c with
  | x31 | x32 | x33 | x34 | x35 | x36 | x37 | x38 | x39 => true
  | _ => false
  end.

Definition isHex (c : byte) : bool :=
  isDigit c ||
  match c with
  | x61 | x62 | x63 | x64 | x65 | x66
  | x41 | x42 | x43 | x44 | x45 | x46 => true
  | _ => false
  end.

Definition pushParseState (s : scanner) (newParseState : parse_state)
           (successState : scan_op) : scanner * scan_op :=
  let s' := mkScanner (step s) (endTop s) (newParseState :: parseState s) (err s) in
  if (N.of_nat (List.length (parseState s')) <=? maxNestingDepth)%N
  then (s', successState)
  else scan_error s' "exceeded max depth".

Definition popParseState (s : scanner) : scanner :=
  let rest := tl (parseState s) in
  match rest with
  | [] => mkScanner stepEndTop true rest (err s)
  | _ => mkScanner stepEndValue (endTop s) rest (err s)
  end.

Definition do_stepEndTop (s : scanner) (c : byte) : scanner * scan_op :=
  if negb (isSpace c)
  then (fst (scan_error s "after top-level value"), scanEnd)
  else (s, scanEnd).

Definition do_stepEndValue (s : scanner) (c : byte) : scanner * scan_op :=
  match parseState s with
  | [] =>
      do_stepEndTop (mkScanner stepEndTop true (parseState s) (err s)) c
  | ps :: _ =>
      if isSpace c then (with_step s stepEndValue, scanSkipSpace)
      else
        match ps with
        | parseObjectKey =>
            if Byte.eqb c x3a (* : *)
            then (with_step (set_top s parseObjectValue) stepBeginValue,
                  scanObjectKey)
            else scan_error s "after object key"
        | parseObjectValue =>
            if Byte.eqb c x2c (* , *)
            then (with_step (set_top s parseObjectKey) stepBeginString,
                  scanObjectValue)
            else if Byte.eqb c x7d (* } *)
            then (popParseState s, scanEndObject)
            else scan_error s "after object key:value pair"
        | parseArrayValue =>
            if Byte.eqb c x2c
            then (with_step s stepBeginValue, scanArrayValue)
            else if Byte.eqb c x5d (* ] *)
            then (popParseState s, scanEndArray)
            else scan_error s "after array element"
        end
  end.

Definition do_stepBeginValue (s : scanner) (c : byte) : scanner * scan_op :=
  if isSpace c then (s, scanSkipSpace)
  else
    match c with
    | x7b (* { *) =>
        pushParseState (with_step s stepBeginStringOrEmpty)
                       parseObjectKey scanBeginObject
    | x5b (* [ *) =>
        pushParseState (with_step s stepBeginValueOrEmpty)
                       parseArrayValue scanBeginArray
    | x22 (* double quote *) => (with_step s stepInString, scanBeginLiteral)
    | x2d (* - *) => (with_step s stepNeg, scanBeginLiteral)
    | x30 (* 0 *) => (with_step s step0, scanBeginLiteral)
    | x74 (* t *) => (with_step s stepT, scanBeginLiteral)
    | x66 (* f *) => (with_step s stepF, scanBeginLiteral)
    | x6e (* n *) => (with_step s stepN, scanBeginLiteral)
    | _ =>
        if isDigit19 c then (with_step s step1, scanBeginLiteral)
        else scan_error s "looking for beginning of value"
    end.

Definition do_stepBeginValueOrEmpty (s : scanner) (c : byte) : scanner * scan_op :=
  if isSpace c then (s, scanSkipSpace)
  else if Byte.eqb c x5d then do_stepEndValue s c
  else do_stepBeginValue s c.

Definition do_stepBeginString (s : scanner) (c : byte) : scanner * scan_op :=
  if isSpace c then (s, scanSkipSpace)
  else if Byte.eqb c x22 then (with_step s stepInString, scanBeginLiteral)
  else scan_error s "looking for beginning of object key string".

Definition do_stepBeginStringOrEmpty (s : scanner) (c : byte) : scanner * scan_op :=
  if isSpace c then (s, scanSkipSpace)
  else if Byte.eqb c x7d
  then do_stepEndValue (set_top s parseObjectValue) c
  else do_stepBeginString s c.

Definition do_stepInString (s : scanner) (c : byte) : scanner * scan_op :=
  if Byte.eqb c x22 then (with_step s stepEndValue, scanContinue)
  else if Byte.eqb c x5c (* backslash *)
  then (with_step s stepInStringEsc, scanContinue)
  else if (Byte.to_N c <? 32)%N then scan_error s "in string literal"
  else (s, scanContinue).

Definition do_stepInStringEsc (s : scanner) (c : byte) : scanner * scan_op :=
  match c with
  | x62 | x66 | x6e | x72 | x74 | x5c | x2f | x22 =>
      (with_step s stepInString, scanContinue)
  | x75 (* u *) => (with_step s stepInStringEscU, scanContinue)
  | _ => scan_error s "in string escape code"
  end.

Definition do_hex (next : stepfn) (s : scanner) (c : byte) : scanner * scan_op :=
  if isHex c then (with_step s next, scanContinue)
  else scan_error s "in \u hexadecimal character escape".

Definition do_step0 (s : scanner) (c : byte) : scanner * scan_op :=
  if Byte.eqb c x2e (* . *) then (with_step s stepDot, scanContinue)
  else if Byte.eqb c x65 || Byte.eqb c x45 (* e E *)
  then (with_step s stepE, scanContinue)
  else do_stepEndValue s c.

Definition do_step1 (s : scanner) (c : byte) : scanner * scan_op :=
  if isDigit c then (with_step s step1, scanContinue)
  else do_step0 s c.

Definition do_stepNeg (s : scanner) (c : byte) : scanner * scan_op :=
  if Byte.eqb c x30 then (with_step s step0, scanContinue)
  else if isDigit19 c then (with_step s step1, scanContinue)
  else scan_error s "in numeric literal".

Definition do_stepDot (s : scanner) (c : byte) : scanner * scan_op :=
  if isDigit c then (with_step s stepDot0, scanContinue)
  else scan_error s "after decimal point in numeric literal".

Definition do_stepDot0 (s : scanner) (c : byte) : scanner * scan_op :=
  if isDigit c then (s, scanContinue)
  else if Byte.eqb c x65 || Byte.eqb c x45
  then (with_step s stepE, scanContinue)
  else do_stepEndValue s c.

Definition do_stepESign (s : scanner) (c : byte) : scanner * scan_op :=
  if isDigit c then (with_step s stepE0, scanContinue)
  else scan_error s "in exponent of numeric literal".

Definition do_stepE (s : scanner) (c : byte) : scanner * scan_op :=
  if Byte.eqb c x2b || Byte.eqb c x2d (* + - *)
  then (with_step s stepESign, scanContinue)
  else do_stepESign s c.

Definition do_stepE0 (s : scanner) (c : byte) : scanner * scan_op :=
  if isDigit c then (s, scanContinue)
  else do_stepEndValue s c.

(** One letter of the literals [true], [false] and [null]. *)
Definition do_letter (want : byte) (next : stepfn) (context : string)
           (s : scanner) (c : byte) : scanner * scan_op :=
  if Byte.eqb c want then (with_step s next, scanContinue)
  else scan_error s context.

(** [s.step(s, c)] *)
Definition scan_step (s : scanner) (c : byte) : scanner * scan_op :=
  match step s with
  | stepBeginValue => do_stepBeginValue s c
  | stepBeginValueOrEmpty => do_stepBeginValueOrEmpty s c
  | stepBeginStringOrEmpty => do_stepBeginStringOrEmpty s c
  | stepBeginString => do_stepBeginString s c
  | stepEndValue => do_stepEndValue s c
  | stepEndTop => do_stepEndTop s c
  | stepInString => do_stepInString s c
  | stepInStringEsc => do_stepInStringEsc s c
  | stepInStringEscU => do_hex stepInStringEscU1 s c
  | stepInStringEscU1 => do_hex stepInStringEscU12 s c
  | stepInStringEscU12 => do_hex stepInStringEscU123 s c
  | stepInStringEscU123 => do_hex stepInString s c
  | stepNeg => do_stepNeg s c
  | step1 => do_step1 s c
  | step0 => do_step0 s c
  | stepDot => do_stepDot s c
  | stepDot0 => do_stepDot0 s c
  | stepE => do_stepE s c
  | stepESign => do_stepESign s c
  | stepE0 => do_stepE0 s c
  | stepT => do_letter x72 stepTr "in literal true (expecting 'r')" s c
  | stepTr => do_letter x75 stepTru "in literal true (expecting 'u')" s c
  | stepTru => do_letter x65 stepEndValue "in literal true (expecting 'e')" s c
  | stepF => do_letter x61 stepFa "in literal false (expecting 'a')" s c
  | stepFa => do_letter x6c stepFal "in literal false (expecting 'l')" s c
  | stepFal => do_letter x73 stepFals "in literal false (expecting 's')" s c
  | stepFals => do_letter x65 stepEndValue "in literal false (expecting 'e')" s c
  | stepN => do_letter x75 stepNu "in literal null (expecting 'u')" s c
  | stepNu => do_letter x6c stepNul "in literal null (expecting 'l')" s c
  | stepNul => do_letter x6c stepEndValue "in literal null (expecting 'l')" s c
  | stepError => (s, scanError)
  end.

(** [s.eof()] *)
Definition eof (s : scanner) : scanner * scan_op :=
  match err s with
  | Some _ => (s, scanError)
  | None =>
      if endTop s then (s, scanEnd)
      else
        let s' := fst (scan_step s x20) in
        if endTop s' then (s', scanEnd)
        else
          match err s' with
          | Some _ => (s', scanError)
          | None =>
              (mkScanner (step s') (endTop s') (parseState s')
                         (Some "unexpected end of JSON input"), scanError)
          end
  end.

(** [checkValid] and [json.Valid] *)
Fixpoint checkValid_loop (s : scanner) (data : list byte) : option scanner :=
  match data with
  | [] => Some s
  | c :: rest =>
      let '(s', v) := scan_step s c in
      if is_scanError v then None else checkValid_loop s' rest
  end.

Definition Valid (data : list byte) : bool :=
  match checkValid_loop reset data with
  | None => false
  | Some s => negb (is_scanError (snd (eof s)))
  end.

(** *** [compact] ([indent.go])

    The Go loop keeps an index [start] of the first byte of [src] that is not
    yet copied to [dst], and copies [src[start:i]] whenever it drops or
    replaces byte [i].  Here every byte is copied as soon as it is passed;
    [skip] counts the bytes from the current one on that [start] has already
    moved over.  When the scanner reports an error the loop breaks and the
    call to [eof] makes [compact] discard its output. *)

Definition hex (n : N) : byte :=
  match n with
  | 0 => x30 | 1 => x31 | 2 => x32 | 3 => x33 | 4 => x34 | 5 => x35
  | 6 => x36 | 7 => x37 | 8 => x38 | 9 => x39 | 10 => x61 | 11 => x62
  | 12 => x63 | 13 => x64 | 14 => x65 | _ => x66
  end%N.

Definition isHTMLByte (c : byte) : bool :=
  match c with
  | x3c | x3e | x26 => true
  | _ => false
  end.

(** [\u00] followed by the two hexadecimal digits of [c] *)
Definition escape_u00 (c : byte) : list byte :=
  [x5c; x75; x30; x30;
   hex (N.shiftr (Byte.to_N c) 4); hex (N.land (Byte.to_N c) 15)].

(** [c == 0xE2 && i+2 < len(src) && src[i+1] == 0x80 && src[i+2]&^1 == 0xA8] *)
Definition isLineSep (c : byte) (rest : list byte) : option byte :=
  match c, rest with
  | xe2, x80 :: b2 :: _ =>
      match b2 with
      | xa8 | xa9 => Some b2
      | _ => None
      end
  | _, _ => None
  end.

(** [\u202] followed by the last hexadecimal digit of [b2] *)
Definition escape_u202 (b2 : byte) : list byte :=
  [x5c; x75; x32; x30; x32; hex (N.land (Byte.to_N b2) 15)].

Fixpoint compact_loop (escape : bool) (s : scanner) (skip : nat)
         (src : list byte) : scanner * list byte :=
  match src with
  | [] => (s, [])
  | c :: rest =>
      let '(out1, rel1) :=
        if escape && isHTMLByte c then (escape_u00 c, 1) else ([], skip) in
      let '(out2, rel2) :=
        match (if escape then isLineSep c rest else None) with
        | Some b2 => (escape_u202 b2, 3)
        | None => ([], rel1)
        end in
      let '(s', v) := scan_step s c in
      if ge_scanSkipSpace v then
        if is_scanError v then (s', out1 ++ out2)
        else
          let '(s'', out) := compact_loop escape s' 0 rest in
          (s'', out1 ++ out2 ++ out)
      else
        let cur := match rel2 with 0 => [c] | _ => [] end in
        let '(s'', out) := compact_loop escape s' (pred rel2) rest in
        (s'', out1 ++ out2 ++ cur ++ out)
  end.

Definition compact (escape : bool) (src : list byte) : error + list byte :=
  let '(s, out) := compact_loop escape reset 0 src in
  let '(s', v) := eof s in
  if is_scanError v
  then inl (errors_New (match err s' with Some m => m | None => EmptyString end))
  else inr out.

End JSON.


(** ** encoding/base64: [StdEncoding]

    Shifts by [k] bits are written as multiplication and division by [2^k];
    the three bytes of a group occupy disjoint bits of [val]. *)

Module Base64.

Definition encodeStd : list byte :=
  list_byte_of_string
    "ABCDEFGHIJKLMNOPQRSTUVWXYZabcdefghijklmnopqrstuvwxyz0123456789+/".

Definition padChar : byte := x3d.

Definition enc (i : N) : byte := nth (N.to_nat i) encodeStd x00.

Definition val3 (a b c : byte) : N :=
  (Byte.to_N a * 65536 + Byte.to_N b * 256 + Byte.to_N c)%N.

Fixpoint EncodeToString (src : list byte) : list byte :=
  match src with
  | a :: b :: c :: rest =>
      let val := val3 a b c in
      enc (val / 262144 mod 64) :: enc (val / 4096 mod 64)
          :: enc (val / 64 mod 64) :: enc (val mod 64)
          :: EncodeToString rest
  | [a; b] =>
      let val := val3 a b x00 in
      [enc (val / 262144 mod 64); enc (val / 4096 mod 64);
       enc (val / 64 mod 64); padChar]
  | [a] =>
      let val := val3 a x00 x00 in
      [enc (val / 262144 mod 64); enc (val / 4096 mod 64); padChar; padChar]
  | [] => []
  end%N.

Fixpoint index_of (c : byte) (l : list byte) (i : N) : option N :=
  match l with
  | [] => None
  | x :: r => if Byte.eqb c x then Some i else index_of c r (N.succ i)
  end.

(** The decode map of the alphabet. *)
Definition dec (c : byte) : option N := index_of c encodeStd 0%N.

Definition quantum (i0 i1 i2 i3 : N) : N :=
  (i0 * 262144 + i1 * 4096 + i2 * 64 + i3)%N.

Definition bytes_of (val : N) (n : nat) : list byte :=
  firstn n [byte_of_N (val / 65536 mod 256); byte_of_N (val / 256 mod 256);
            byte_of_N (val mod 256)]%N.

Fixpoint DecodeString (s : list byte) : option (list byte) :=
  match s with
  | [] => Some []
  | c0 :: c1 :: c2 :: c3 :: rest =>
      match dec c0, dec c1 with
      | Some i0, Some i1 =>
          match dec c2, dec c3 with
          | Some i2, Some i3 =>
              option_map (app (bytes_of (quantum i0 i1 i2 i3) 3))
                         (DecodeString rest)
          | Some i2, None =>
              match rest with
              | [] => if Byte.eqb c3 padChar
                      then Some (bytes_of (quantum i0 i1 i2 0) 2) else None
              | _ => None
              end
          | None, _ =>
              match rest with
              | [] => if Byte.eqb c2 padChar && Byte.eqb c3 padChar
                      then Some (bytes_of (quantum i0 i1 0 0) 1) else None
              | _ => None
              end
          end
      | _, _ => None
      end
  | _ => None
  end.

End Base64.

(** ** unicode/utf8: [DecodeRuneInString] *)

Module UTF8.

Definition RuneError : N := 65533.

Definition RuneSelf : N := 128.

(** The table [first]: for a leading byte of a multi-byte sequence, the size
    of the sequence and the range accepted for its second byte. *)
Definition first (s0 : byte) : option (nat * (N * N)) :=
  let n := Byte.to_N s0 in
  (if n <? 194 then None
   else if n <? 224 then Some (2%nat, (128, 191))
   else if n =? 224 then Some (3%nat, (160, 191))
   else if n <? 237 then Some (3%nat, (128, 191))
   else if n =? 237 then Some (3%nat, (128, 159))
   else if n <? 240 then Some (3%nat, (128, 191))
   else if n =? 240 then Some (4%nat, (144, 191))
   else if n <? 244 then Some (4%nat, (128, 191))
   else if n =? 244 then Some (4%nat, (128, 143))
   else None)%N.

Definition between (lo hi : N) (b : byte) : bool :=
  ((lo <=? Byte.to_N b) && (Byte.to_N b <=? hi))%N.

(** [b & maskx] *)
Definition low6 (b : byte) : N := (Byte.to_N b mod 64)%N.

Definition DecodeRune (s : list byte) : N * nat :=
  match s with
  | [] => (RuneError, 0)
  | s0 :: r =>
      match first s0 with
      | None =>
          (if (Byte.to_N s0 <? RuneSelf)%N then Byte.to_N s0 else RuneError, 1)
      | Some (sz, (lo, hi)) =>
          if (List.length s <? sz)%nat then (RuneError, 1)
          else
            match r with
            | [] => (RuneError, 1)
            | s1 :: r1 =>
                if negb (between lo hi s1) then (RuneError, 1)
                else if (sz <=? 2)%nat
                then (((Byte.to_N s0 mod 32) * 64 + low6 s1)%N, 2)
                else
                  match r1 with
                  | [] => (RuneError, 1)
                  | s2 :: r2 =>
                      if negb (between 128 191 s2) then (RuneError, 1)
                      else if (sz <=? 3)%nat
                      then (((Byte.to_N s0 mod 16) * 4096 + low6 s1 * 64
                             + low6 s2)%N, 3)
                      else
                        match r2 with
                        | [] => (RuneError, 1)
                        | s3 :: _ =>
                            if negb (between 128 191 s3) then (RuneError, 1)
                            else (((Byte.to_N s0 mod 8) * 262144
                                   + low6 s1 * 4096 + low6 s2 * 64
                                   + low6 s3)%N, 4)
                        end
                  end
            end
      end
  end.

(** [EncodeRune] *)
Definition EncodeRune (r : N) : list byte :=
  let three (r : N) :=
    [byte_of_N (224 + r / 4096); byte_of_N (128 + r / 64 mod 64);
     byte_of_N (128 + r mod 64)]%N in
  (if r <=? 127 then [byte_of_N r]
   else if r <=? 2047
   then [byte_of_N (192 + r / 64); byte_of_N (128 + r mod 64)]
   else if (1114111 <? r) || ((55296 <=? r) && (r <=? 57343))
   then three RuneError
   else if r <=? 65535 then three r
   else [byte_of_N (240 + r / 262144); byte_of_N (128 + r / 4096 mod 64);
         byte_of_N (128 + r / 64 mod 64); byte_of_N (128 + r mod 64)])%N.

End UTF8.

(** ** encoding/json: the encoder ([encode.go]), with [escapeHTML] set as
    [json.Marshal] sets it *)

Module Encode.

(** [htmlSafeSet]: the ASCII bytes that are copied as they are. *)
Definition htmlSafeSet (b : byte) : bool :=
  ((32 <=? Byte.to_N b) && (Byte.to_N b <? 128))%N
  && negb (match b with
           | x22 | x5c | x3c | x3e | x26 => true
           | _ => false
           end).

Definition escape_ascii (b : byte) : list byte :=
  match b with
  | x5c | x22 => [x5c; b]
  | x0a => [x5c; x6e]
  | x0d => [x5c; x72]
  | x09 => [x5c; x74]
  | _ => JSON.escape_u00 b
  end.

(** The body of the loop of [encodeState.string]; [fuel] bounds the number of
    runes, which never exceeds the number of bytes. *)
Fixpoint string_loop (fuel : nat) (s : list byte) : list byte :=
  match fuel with
  | O => []
  | Datatypes.S fuel' =>
      match s with
      | [] => []
      | b :: rest =>
          if (Byte.to_N b <? UTF8.RuneSelf)%N then
            (if htmlSafeSet b then [b] else escape_ascii b)
              ++ string_loop fuel' rest
          else
            let '(c, size) := UTF8.DecodeRune s in
            if (c =? UTF8.RuneError)%N && (size =? 1)%nat
            then [x5c; x75; x66; x66; x66; x64] ++ string_loop fuel' rest
            else if (c =? 8232)%N || (c =? 8233)%N
            then [x5c; x75; x32; x30; x32; JSON.hex (N.land c 15)]
                   ++ string_loop fuel' (skipn size s)
            else firstn size s ++ string_loop fuel' (skipn size s)
      end
  end.

(** [e.string(s, escapeHTML)] *)
Definition encode_string (s : string) : list byte :=
  let bs := list_byte_of_string s in
  x22 :: string_loop (List.length bs) bs ++ [x22].

(** [encodeByteSlice] for a slice that is not nil *)
Definition encodeByteSlice (b : list byte) : list byte :=
  x22 :: Base64.EncodeToString b ++ [x22].

(** [marshalerEncoder] at [json.RawMessage]: [MarshalJSON] returns the
    message itself, which is copied through [compact]. *)
Definition marshalerEncoder (m : list byte) : error + list byte :=
  match JSON.compact true m with
  | inl e =>
      inl (errors_Wrap e
             "json: error calling MarshalJSON for type *json.RawMessage")
  | inr out => inr out
  end.

(** Maps are written with their keys in increasing order. *)
Fixpoint insert_by_key (kv : string * string) (l : list (string * string))
  : list (string * string) :=
  match l with
  | [] => [kv]
  | kv' :: r =>
      if (fst kv <=? fst kv')%string then kv :: l
      else kv' :: insert_by_key kv r
  end.

Definition sort_by_key (l : list (string * string)) : list (string * string) :=
  fold_right insert_by_key [] l.

Fixpoint join (sep : byte) (parts : list (list byte)) : list byte :=
  match parts with
  | [] => []
  | [p] => p
  | p :: r => p ++ sep :: join sep r
  end.

Definition encode_member (kv : string * string) : list byte :=
  encode_string (fst kv) ++ x3a :: encode_string (snd kv).

(** [mapEncoder] at [map[string]string], for a map that is not nil *)
Definition encode_map (m : list (string * string)) : list byte :=
  x7b :: join x2c (map encode_member (sort_by_key m)) ++ [x7d].

(** [structEncoder]: the fields as [(name, encoded value)], written as
    [{"name":value,...}] *)
Definition encode_field (f : string * list byte) : list byte :=
  x22 :: list_byte_of_string (fst f) ++ x22 :: x3a :: snd f.

Definition encode_struct (fields : list (string * list byte)) : list byte :=
  x7b :: join x2c (map encode_field fields) ++ [x7d].

End Encode.

(** ** The content of a JSON text

    A JSON text read as its sequence of tokens: white space between tokens is
    dropped and the escapes of a string literal are replaced by what they
    denote, as [unquote] of [decode.go] does.  The halves of a surrogate pair
    are kept as code units.  The value of a text is read off its tokens. *)

Module Tokens.

Inductive code : Type :=
| CByte (b : byte)
| CSurrogate (unit : N).

Inductive token : Type :=
| TPunct (c : byte)
| TWord (word : list byte)
| TString (content : list code).

(** Where the reader is: between tokens or in a number or literal of which
    [word] has been read, in a string literal, after a backslash, or after
    [\u] and some hexadecimal digits. *)
Inductive mode : Type :=
| LOut (word : list byte)
| LStr (content : list code)
| LEsc (content : list code)
| LU (content : list code) (digits : list byte).

Definition isPunct (c : byte) : bool :=
  match c with
  | x7b | x7d | x5b | x5d | x2c | x3a => true
  | _ => false
  end.

Definition flush (word : list byte) : list token :=
  match word with
  | [] => []
  | _ => [TWord word]
  end.

(** The byte that a one-letter escape denotes. *)
Definition unescape (c : byte) : byte :=
  match c with
  | x62 => x08
  | x66 => x0c
  | x6e => x0a
  | x72 => x0d
  | x74 => x09
  | _ => c
  end.

Definition hexval (c : byte) : N :=
  let n := Byte.to_N c in
  (if JSON.isDigit c then n - 48
   else if (97 <=? n) && (n <=? 102) then n - 87
   else if (65 <=? n) && (n <=? 70) then n - 55
   else 0)%N.

(** [getu4] *)
Definition getu4 (digits : list byte) : N :=
  fold_left (fun n d => (n * 16 + hexval d)%N) digits 0%N.

Definition isSurrogate (r : N) : bool :=
  ((55296 <=? r) && (r <? 57344))%N.

Definition codes (r : N) : list code :=
  if isSurrogate r then [CSurrogate r] else map CByte (UTF8.EncodeRune r).

Definition lex_step (l : mode) (c : byte) : list token * mode :=
  match l with
  | LOut word =>
      if JSON.isSpace c then (flush word, LOut [])
      else if Byte.eqb c x22 then (flush word, LStr [])
      else if isPunct c then (flush word ++ [TPunct c], LOut [])
      else ([], LOut (word ++ [c]))
  | LStr content =>
      if Byte.eqb c x22 then ([TString content], LOut [])
      else if Byte.eqb c x5c then ([], LEsc content)
      else ([], LStr (content ++ [CByte c]))
  | LEsc content =>
      if Byte.eqb c x75 then ([], LU content [])
      else ([], LStr (content ++ [CByte (unescape c)]))
  | LU content digits =>
      match digits with
      | [_; _; _] => ([], LStr (content ++ codes (getu4 (digits ++ [c]))))
      | _ => ([], LU content (digits ++ [c]))
      end
  end.

Definition finish (l : mode) : list token :=
  match l with
  | LOut word => flush word
  | _ => []
  end.

Fixpoint lex (l : mode) (src : list byte) : list token :=
  match src with
  | [] => finish l
  | c :: rest =>
      let '(out, l') := lex_step l c in out ++ lex l' rest
  end.

Definition tokens (src : list byte) : list token := lex (LOut []) src.

(** The value of a text. *)
#[local] Set Warnings "-register-all".
Inductive value : Type :=
| Null
| Bool (b : bool)
| Number (literal : list byte)
| String (content : list code)
| Array (elements : list value)
| Object (members : list (list code * value)).

Definition word_value (word : list byte) : value :=
  match word with
  | [x6e; x75; x6c; x6c] => Null
  | [x74; x72; x75; x65] => Bool true
  | [x66; x61; x6c; x73; x65] => Bool false
  | _ => Number word
  end.

Fixpoint parse_value (fuel : nat) (ts : list token)
  : option (value * list token) :=
  match fuel with
  | O => None
  | Datatypes.S fuel' =>
      match ts with
      | TWord word :: r => Some (word_value word, r)
      | TString content :: r => Some (String content, r)
      | TPunct x5b :: TPunct x5d :: r => Some (Array [], r)
      | TPunct x5b :: r =>
          match parse_elements fuel' r with
          | Some (vs, r') => Some (Array vs, r')
          | None => None
          end
      | TPunct x7b :: TPunct x7d :: r => Some (Object [], r)
      | TPunct x7b :: r =>
          match parse_members fuel' r with
          | Some (ms, r') => Some (Object ms, r')
          | None => None
          end
      | _ => None
      end
  end
with parse_elements (fuel : nat) (ts : list token)
  : option (list value * list token) :=
  match fuel with
  | O => None
  | Datatypes.S fuel' =>
      match parse_value fuel' ts with
      | Some (v, TPunct x2c :: r) =>
          match parse_elements fuel' r with
          | Some (vs, r') => Some (v :: vs, r')
          | None => None
          end
      | Some (v, TPunct x5d :: r) => Some ([v], r)
      | _ => None
      end
  end
with parse_members (fuel : nat) (ts : list token)
  : option (list (list code * value) * list token) :=
  match fuel with
  | O => None
  | Datatypes.S fuel' =>
      match ts with
      | TString key :: TPunct x3a :: r =>
          match parse_value fuel' r with
          | Some (v, TPunct x2c :: r') =>
              match parse_members fuel' r' with
              | Some (ms, r'') => Some ((key, v) :: ms, r'')
              | None => None
              end
          | Some (v, TPunct x7d :: r') => Some ([(key, v)], r')
          | _ => None
          end
      | _ => None
      end
  end.

(** The value that a text denotes, if it is a single value. *)
Definition decode (src : list byte) : option value :=
  let ts := tokens src in
  match parse_value (Datatypes.S (List.length ts)) ts with
  | Some (v, []) => Some v
  | _ => None
  end.

End Tokens.

(** ** The Emitter event source ([eventsources/sources/emitter/start.go]) *)

Module Emitter.

(** [corev1.SecretKeySelector], as far as [start.go] reads it *)
Record SecretKeySelector : Type := {
  Name : string;
  Key : string
}.

(** Modelled from the spec: [apicommon.Backoff], the connection backoff
    policy, whose declaration is not part of the sources.  The spec lists an
    initial delay, a multiplier and a maximum number of retries. *)
Record Backoff : Type := {
  Duration : N;
  Factor : N;
  Steps : nat
}.

(** Modelled from the spec: [events.EmitterEventData], whose declaration,
    with its field tags, is not part of the sources: the envelope of a topic,
    a body and the metadata, a map from strings to strings.  The callback
    stores in the body, of type [interface{}], either the payload as a byte
    slice or a pointer to it as a [json.RawMessage]. *)
Inductive body_value : Type :=
| BodyBytes (body : list byte)
| BodyRawMessage (body : list byte).

Record EmitterEventData : Type := {
  Topic : string;
  Body : body_value;
  Metadata : list (string * string)
}.

(** [emitter.Message]; the transport allocates the payload, so the slice is
    never nil. *)
Record Message : Type := {
  msg_Topic : string;
  msg_Payload : list byte
}.

(** [json.Marshal] at [*events.EmitterEventData]: the fields in declaration
    order; the metadata are written when the map has entries. *)
Definition encode_Body (b : body_value) : error + list byte :=
  match b with
  | BodyBytes body => inr (Encode.encodeByteSlice body)
  | BodyRawMessage body => Encode.marshalerEncoder body
  end.

Definition metadata_field (m : list (string * string))
  : list (string * list byte) :=
  match m with
  | [] => []
  | _ => [("metadata", Encode.encode_map m)]
  end.

Definition event_fields (event : EmitterEventData)
  : error + list (string * list byte) :=
  match encode_Body (Body event) with
  | inl e => inl e
  | inr body =>
      inr (("topic", Encode.encode_string (Topic event))
             :: ("body", body)
             :: metadata_field (Metadata event))
  end.

Definition Marshal (event : EmitterEventData) : error + list byte :=
  match event_fields event with
  | inl e => inl e
  | inr fields => inr (Encode.encode_struct fields)
  end.

Section Listener.

(** [apicommon.TLSConfig] and [crypto/tls.Config] *)
Variable TLSConfig : Type.
Variable tls_Config : Type.

(** [v1alpha1.EmitterEventSource]: the fields that [start.go] reads *)
Record EmitterEventSource : Type := {
  Broker : string;
  ChannelKey : string;
  ChannelName : string;
  Username : option SecretKeySelector;
  Password : option SecretKeySelector;
  ConnectionBackoff : option Backoff;
  JSONBody : bool;
  TLS : option TLSConfig;
  es_Metadata : list (string * string)
}.

Record EventListener : Type := {
  EventSourceName : string;
  EventName : string;
  EmitterEventSource_ : EmitterEventSource
}.

Inductive client_option : Type :=
| WithTLSConfig (c : tls_Config)
| WithBrokers (broker : string)
| WithAutoReconnect (b : bool)
| WithUsername (u : string)
| WithPassword (p : string).

(** What a run does to the outside, in order. *)
Inductive effect : Type :=
| LogInfo (msg : string)
| LogError (msg : string) (e : error)
| NewClient (options : list client_option)
| ClientConnect (result : option error)
| ClientSubscribe (key channel : string) (result : option error)
| CtxDone
| ClientUnsubscribe (key channel : string) (result : option error)
| Dispatch (eventBytes : list byte) (result : option error)
| EventProcessingFailed (eventSourceName eventName : string)
| EventProcessingDuration (eventSourceName eventName : string) (ms : N).

(** The collaborators of one run: the secret and TLS helpers of package
    [common], the broker client, and the messages the broker delivers to the
    subscription, each with the time its processing takes, until the
    subscription is removed after cancellation.  The callbacks are taken one
    after the other. *)
Record World : Type := {
  GetTLSConfig : TLSConfig -> error + tls_Config;
  GetSecretFromVolume : SecretKeySelector -> error + string;
  DefaultBackoff : Backoff;
  client_Connect : nat -> option error;
  client_Subscribe : string -> string -> option error;
  inbound : list (Message * N);
  client_Unsubscribe : string -> string -> option error
}.

(** The dispatch pipeline, with whatever state it keeps between calls. *)
Variable Pipeline : Type.
Variable dispatch : list byte -> Pipeline -> option error * Pipeline.

(** Modelled from the spec: [common.Connect], which is not part of the
    sources.  It applies the backoff policy around the connect attempt and,
    on exhausting the retries, returns a terminal error wrapping the last
    failure.  [k] counts the attempts made so far. *)
Fixpoint retry (steps : nat) (conn : nat -> option error) (k : nat)
         (last : error) : option error * list effect :=
  match steps with
  | O => (Some (errors_Wrap last "failed after retries"), [])
  | Datatypes.S n =>
      match conn k with
      | None => (None, [ClientConnect None])
      | Some e =>
          let '(r, tr) := retry n conn (Datatypes.S k) e in
          (r, ClientConnect (Some e) :: tr)
      end
  end.

Definition common_Connect (w : World) (backoff : option Backoff)
           (conn : nat -> option error) : option error * list effect :=
  let b := match backoff with Some b => b | None => DefaultBackoff w end in
  retry (Steps b) conn 0 (errors_New "timed out waiting for the condition").

(** The callback given to [client.Subscribe]. *)
Definition normalize (es : EmitterEventSource) (message : Message)
  : EmitterEventData :=
  let body := msg_Payload message in
  let event := {| Topic := msg_Topic message;
                  Body := BodyBytes body;
                  Metadata := es_Metadata es |} in
  if JSONBody es
  then {| Topic := Topic event;
          Body := BodyRawMessage body;
          Metadata := Metadata event |}
  else event.

Definition onMessage (el : EventListener) (message : Message) (elapsed : N)
           (p : Pipeline) : list effect * Pipeline :=
  let es := EmitterEventSource_ el in
  let deferred :=
    [EventProcessingDuration (EventSourceName el) (EventName el) elapsed] in
  let event := normalize es message in
  match Marshal event with
  | inl err =>
      ([LogError "failed to marshal the event data" err;
        EventProcessingFailed (EventSourceName el) (EventName el)]
         ++ deferred, p)
  | inr eventBytes =>
      let '(r, p') := dispatch eventBytes p in
      match r with
      | Some err =>
          ([LogInfo "dispatching event on data channel...";
            Dispatch eventBytes (Some err);
            LogError "failed to dispatch event" err;
            EventProcessingFailed (EventSourceName el) (EventName el)]
             ++ deferred, p')
      | None =>
          ([LogInfo "dispatching event on data channel...";
            Dispatch eventBytes None]
             ++ deferred, p')
      end
  end.

(** The deliveries between [Subscribe] and [Unsubscribe]. *)
Fixpoint deliver (el : EventListener) (msgs : list (Message * N))
         (p : Pipeline) : list effect * Pipeline :=
  match msgs with
  | [] => ([], p)
  | (m, elapsed) :: rest =>
      let '(tr, p') := onMessage el m elapsed p in
      let '(tr', p'') := deliver el rest p' in
      (tr ++ tr', p'')
  end.

(** The client options, or the error that ends the start-up. *)
Definition client_options (w : World) (es : EmitterEventSource)
  : error + list client_option :=
  match (match TLS es with
         | Some t =>
             match GetTLSConfig w t with
             | inl err =>
                 inl (errors_Wrap err "failed to get the tls configuration")
             | inr tlsConfig => inr [WithTLSConfig tlsConfig]
             end
         | None => inr []
         end) with
  | inl e => inl e
  | inr options =>
      let options :=
        options ++ [WithBrokers (Broker es); WithAutoReconnect true] in
      match (match Username es with
             | Some u =>
                 match GetSecretFromVolume w u with
                 | inl err =>
                     inl (errors_Wrap err
                            ("failed to retrieve the username from "
                               ++ Name u)%string)
                 | inr username => inr (options ++ [WithUsername username])
                 end
             | None => inr options
             end) with
      | inl e => inl e
      | inr options =>
          match Password es with
          | Some pw =>
              match GetSecretFromVolume w pw with
              | inl err =>
                  inl (errors_Wrap err
                         ("failed to retrieve the password from "
                            ++ Name pw)%string)
              | inr password => inr (options ++ [WithPassword password])
              end
          | None => inr options
          end
      end
  end.

Definition StartListening (el : EventListener) (w : World) (p : Pipeline)
  : option error * list effect * Pipeline :=
  let es := EmitterEventSource_ el in
  let tr0 := [LogInfo "started processing the Emitter event source..."] in
  match client_options w es with
  | inl e => (Some e, tr0, p)
  | inr options =>
      let tr1 :=
        tr0
          ++ (if JSONBody es
              then [LogInfo "assuming all events have a json body..."]
              else [])
          ++ [LogInfo "creating a client"; NewClient options] in
      let '(cerr, ctr) :=
        common_Connect w (ConnectionBackoff es) (client_Connect w) in
      match cerr with
      | Some err =>
          (Some (errors_Wrap err ("failed to connect to " ++ Broker es)%string),
           tr1 ++ ctr, p)
      | None =>
          let serr := client_Subscribe w (ChannelKey es) (ChannelName es) in
          let tr2 :=
            tr1 ++ ctr
                ++ [ClientSubscribe (ChannelKey es) (ChannelName es) serr] in
          match serr with
          | Some err =>
              (Some (errors_Wrap err
                       ("failed to subscribe to channel "
                          ++ ChannelName es)%string),
               tr2, p)
          | None =>
              let '(mtr, p') := deliver el (inbound w) p in
              let uerr :=
                client_Unsubscribe w (ChannelKey es) (ChannelName es) in
              (None,
               tr2 ++ mtr
                   ++ [CtxDone;
                       LogInfo "event source stopped, unsubscribe the channel";
                       ClientUnsubscribe (ChannelKey es) (ChannelName es) uerr]
                   ++ match uerr with
                      | Some err => [LogError "failed to unsubscribe" err]
                      | None => []
                      end,
               p')
          end
      end
  end.

(** *** Observations on the effects of a run *)

Definition is_Dispatch (e : effect) : bool :=
  match e with Dispatch _ _ => true | _ => false end.

Definition is_Dispatch_ok (e : effect) : bool :=
  match e with Dispatch _ None => true | _ => false end.

Definition is_Failed (e : effect) : bool :=
  match e with EventProcessingFailed _ _ => true | _ => false end.

Definition is_Duration (e : effect) : bool :=
  match e with EventProcessingDuration _ _ _ => true | _ => false end.

Definition is_Connect (e : effect) : bool :=
  match e with ClientConnect _ => true | _ => false end.

Definition calls (f : effect -> bool) (tr : list effect) : nat :=
  List.length (filter f tr).

(** The byte strings handed to [dispatch], in order. *)
Fixpoint dispatched (tr : list effect) : list (list byte) :=
  match tr with
  | [] => []
  | Dispatch eventBytes _ :: r => eventBytes :: dispatched r
  | _ :: r => dispatched r
  end.

(** The run gets as far as the subscription: the options are resolved, the
    connection is made and the channel is subscribed. *)
Definition subscribed (el : EventListener) (w : World) : bool :=
  let es := EmitterEventSource_ el in
  match client_options w es with
  | inl _ => false
  | inr _ =>
      match fst (common_Connect w (ConnectionBackoff es) (client_Connect w)) with
      | Some _ => false
      | None =>
          match client_Subscribe w (ChannelKey es) (ChannelName es) with
          | Some _ => false
          | None => true
          end
      end
  end.

(** The processing of a message fails: the event cannot be serialised, or
    the dispatch call returns an error. *)
Definition processing_fails (el : EventListener) (message : Message)
           (p : Pipeline) : bool :=
  match Marshal (normalize (EmitterEventSource_ el) message) with
  | inl _ => true
  | inr eventBytes =>
      match fst (dispatch eventBytes p) with
      | Some _ => true
      | None => false
      end
  end.

(** A secret or the TLS configuration that the descriptor refers to cannot
    be resolved. *)
Definition resolution_fails (w : World) (es : EmitterEventSource) : Prop :=
  (exists t e, TLS es = Some t /\ GetTLSConfig w t = inl e)
  \/ (exists u e, Username es = Some u /\ GetSecretFromVolume w u = inl e)
  \/ (exists pw e, Password es = Some pw /\ GetSecretFromVolume w pw = inl e).

(** Two values of the descriptor that differ at most in the order in which
    the runtime iterates over the metadata map. *)
Definition same_descriptor (es es' : EmitterEventSource) : Prop :=
  Broker es = Broker es'
  /\ ChannelKey es = ChannelKey es'
  /\ ChannelName es = ChannelName es'
  /\ Username es = Username es'
  /\ Password es = Password es'
  /\ ConnectionBackoff es = ConnectionBackoff es'
  /\ JSONBody es = JSONBody es'
  /\ TLS es = TLS es'
  /\ NoDup (map fst (es_Metadata es))
  /\ Permutation (es_Metadata es) (es_Metadata es').

(** The same run with another outcome of [client.Unsubscribe]. *)
Definition with_Unsubscribe (w : World) (r : option error) : World :=
  {| GetTLSConfig := GetTLSConfig w;
     GetSecretFromVolume := GetSecretFromVolume w;
     DefaultBackoff := DefaultBackoff w;
     client_Connect := client_Connect w;
     client_Subscribe := client_Subscribe w;
     inbound := inbound w;
     client_Unsubscribe := fun _ _ => r |}.

End Listener.

Arguments Broker {TLSConfig}.
Arguments ChannelKey {TLSConfig}.
Arguments ChannelName {TLSConfig}.
Arguments Username {TLSConfig}.
Arguments Password {TLSConfig}.
Arguments ConnectionBackoff {TLSConfig}.
Arguments JSONBody {TLSConfig}.
Arguments TLS {TLSConfig}.
Arguments es_Metadata {TLSConfig}.
Arguments EventSourceName {TLSConfig}.
Arguments EventName {TLSConfig}.
Arguments EmitterEventSource_ {TLSConfig}.
Arguments GetTLSConfig {TLSConfig tls_Config}.
Arguments GetSecretFromVolume {TLSConfig tls_Config}.
Arguments DefaultBackoff {TLSConfig tls_Config}.
Arguments client_Connect {TLSConfig tls_Config}.
Arguments client_Subscribe {TLSConfig tls_Config}.
Arguments inbound {TLSConfig tls_Config}.
Arguments client_Unsubscribe {TLSConfig tls_Config}.
Arguments Dispatch {tls_Config}.
Arguments EventProcessingFailed {tls_Config}.
Arguments EventProcessingDuration {tls_Config}.
Arguments LogInfo {tls_Config}.
Arguments LogError {tls_Config}.
Arguments ClientConnect {tls_Config}.
Arguments ClientSubscribe {tls_Config}.
Arguments ClientUnsubscribe {tls_Config}.
Arguments CtxDone {tls_Config}.
Arguments NewClient {tls_Config}.
Arguments WithTLSConfig {tls_Config}.
Arguments WithBrokers {tls_Config}.
Arguments WithAutoReconnect {tls_Config}.
Arguments WithUsername {tls_Config}.
Arguments WithPassword {tls_Config}.
Arguments normalize {TLSConfig}.
Arguments onMessage {TLSConfig tls_Config Pipeline}.
Arguments deliver {TLSConfig tls_Config Pipeline}.
Arguments client_options {TLSConfig tls_Config}.
Arguments common_Connect {TLSConfig tls_Config}.
Arguments retry {tls_Config}.
Arguments StartListening {TLSConfig tls_Config Pipeline}.
Arguments calls {tls_Config}.
Arguments dispatched {tls_Config}.
Arguments is_Dispatch {tls_Config}.
Arguments is_Dispatch_ok {tls_Config}.
Arguments is_Failed {tls_Config}.
Arguments is_Duration {tls_Config}.
Arguments is_Connect {tls_Config}.
Arguments subscribed {TLSConfig tls_Config}.
Arguments processing_fails {TLSConfig Pipeline}.
Arguments resolution_fails {TLSConfig tls_Config}.
Arguments with_Unsubscribe {TLSConfig tls_Config}.
Arguments same_descriptor {TLSConfig}.

End Emitter.

(** ** The file gateway configuration ([gateways/core/file/config.go]) *)

Module File.

(** A JSON document as a tree, the form in which [github.com/ghodss/yaml]
    hands a YAML document to [encoding/json]. *)
#[local] Set Warnings "-register-all".
Inductive value : Type :=
| Null
| Bool (b : bool)
| Number (literal : string)
| String (s : string)
| Array (elements : list value)
| Object (members : list (string * value)).

(** Modelled from the spec: [common.WatchPathConfig], whose declaration is
    not part of the sources: the base watch-path settings, that is the
    directory to watch (the path address) and the path of the watched object
    in it (the path identifier), given either literally or as a regular
    expression. *)
Record WatchPathConfig : Type := {
  Directory : string;
  Path : string;
  PathRegexp : string
}.

Record fileWatcher : Type := {
  WatchPathConfig_ : WatchPathConfig;
  Type_ : string
}.

(** The zero value that [json.Unmarshal] allocates for an object. *)
Definition zero : fileWatcher :=
  {| WatchPathConfig_ := {| Directory := EmptyString;
                            Path := EmptyString;
                            PathRegexp := EmptyString |};
     Type_ := EmptyString |}.

(** The fields that [encoding/json] sees, the embedded struct being
    inlined, in declaration order. *)
Inductive field : Type := f_directory | f_path | f_pathRegexp | f_type.

Definition field_name (f : field) : string :=
  match f with
  | f_directory => "directory"
  | f_path => "path"
  | f_pathRegexp => "pathRegexp"
  | f_type => "type"
  end.

Definition fields : list field := [f_directory; f_path; f_pathRegexp; f_type].

Definition set_field (f : field) (s : string) (w : fileWatcher) : fileWatcher :=
  let c := WatchPathConfig_ w in
  match f with
  | f_directory =>
      {| WatchPathConfig_ := {| Directory := s; Path := Path c;
                                PathRegexp := PathRegexp c |};
         Type_ := Type_ w |}
  | f_path =>
      {| WatchPathConfig_ := {| Directory := Directory c; Path := s;
                                PathRegexp := PathRegexp c |};
         Type_ := Type_ w |}
  | f_pathRegexp =>
      {| WatchPathConfig_ := {| Directory := Directory c; Path := Path c;
                                PathRegexp := s |};
         Type_ := Type_ w |}
  | f_type => {| WatchPathConfig_ := c; Type_ := s |}
  end.

Definition get_field (f : field) (w : fileWatcher) : string :=
  match f with
  | f_directory => Directory (WatchPathConfig_ w)
  | f_path => Path (WatchPathConfig_ w)
  | f_pathRegexp => PathRegexp (WatchPathConfig_ w)
  | f_type => Type_ w
  end.

(** [asciiEqualFold]: equality up to the case bit. *)
Definition clear_case (a : ascii) : ascii :=
  match a with
  | Ascii b0 b1 b2 b3 b4 _ b6 b7 => Ascii b0 b1 b2 b3 b4 false b6 b7
  end.

Fixpoint asciiEqualFold (s t : string) : bool :=
  match s, t with
  | EmptyString, EmptyString => true
  | String.String a s', String.String b t' =>
      Ascii.eqb (clear_case a) (clear_case b) && asciiEqualFold s' t'
  | _, _ => false
  end.

(** The field a key selects: the one of that name, or else the first one
    that matches up to case. *)
Definition find_field (key : string) : option field :=
  match find (fun f => String.eqb (field_name f) key) fields with
  | Some f => Some f
  | None => find (fun f => asciiEqualFold (field_name f) key) fields
  end.

(** Decoding the members of an object into the struct.  A value of the wrong
    type is skipped and reported at the end; decoding continues, and the first
    such error is the one that is kept. *)
Fixpoint decode_members (members : list (string * value)) (w : fileWatcher)
         (saved : option error) : fileWatcher * option error :=
  match members with
  | [] => (w, saved)
  | (key, v) :: rest =>
      match find_field key with
      | None => decode_members rest w saved
      | Some f =>
          match v with
          | String s => decode_members rest (set_field f s w) saved
          | Null => decode_members rest w saved
          | _ =>
              decode_members rest w
                (match saved with
                 | Some e => Some e
                 | None =>
                     Some (errors_New
                             ("json: cannot unmarshal into Go struct field "
                                ++ field_name f ++ " of type string")%string)
                 end)
          end
      end
  end.

(** [json.Unmarshal] at a pointer to a nil [*fileWatcher]. *)
Definition json_Unmarshal (v : value) : option fileWatcher * option error :=
  match v with
  | Null => (None, None)
  | Object members =>
      let '(w, e) := decode_members members zero None in (Some w, e)
  | _ =>
      (None,
       Some (errors_New
               "json: cannot unmarshal into Go value of type file.fileWatcher"))
  end.

(** A member that selects a field and holds neither a string nor null. *)
Definition ill_typed (kv : string * value) : bool :=
  match find_field (fst kv), snd kv with
  | Some _, String _ | Some _, Null => false
  | Some _, _ => true
  | None, _ => false
  end.

(** The documents on which the unmarshalling fails: those that cannot be
    converted, those that are neither null nor a mapping, and the mappings
    with an ill-typed member. *)
Definition unmarshal_fails (r : error + value) : bool :=
  match r with
  | inl _ => true
  | inr Null => false
  | inr (Object members) => existsb ill_typed members
  | inr _ => true
  end.

(** The value returned as [interface{}]: either no value at all, or a
    [*fileWatcher], which may itself be nil. *)
Inductive interface : Type :=
| nil
| ptr (f : option fileWatcher).

Section Parse.

(** The conversion of a YAML document to JSON done by
    [github.com/ghodss/yaml]. *)
Variable yamlToJSON : string -> error + value.

(** [yaml.Unmarshal(y, &f)] *)
Definition yaml_Unmarshal (y : string) : option fileWatcher * option error :=
  match yamlToJSON y with
  | inl e => (None, Some (errors_Wrap e "error converting YAML to JSON"))
  | inr j =>
      let '(f, e) := json_Unmarshal j in
      (f, match e with
          | Some e => Some (errors_Wrap e "error unmarshaling JSON")
          | None => None
          end)
  end.

Definition parseEventSource (eventSource : string)
  : interface * option error :=
  let '(f, err) := yaml_Unmarshal eventSource in
  match err with
  | Some e => (nil, Some e)
  | None => (ptr f, err)
  end.

End Parse.

(** A reader for block mappings of single-quoted scalars, one [key: 'text']
    per line, keys being made of letters and the text holding no quote.  It
    stands for the YAML front end on the documents of this fragment, where
    every scalar is a string; the empty document is [null].  Other documents
    are outside the fragment and reported as not converted.  As the front
    end does, it collects the members in a map, where a line replaces an
    earlier one with the same key, and writes the map as [json.Marshal]
    does, the keys in increasing byte order. *)
Definition is_letter (a : ascii) : bool :=
  let n := nat_of_ascii a in
  ((65 <=? n) && (n <=? 90) || (97 <=? n) && (n <=? 122))%nat.

Definition quote : ascii := "'"%char.

Fixpoint split_lines (s : string) (cur : string) : list string :=
  match s with
  | EmptyString => [cur]
  | String.String a r =>
      if Ascii.eqb a "010"%char then cur :: split_lines r EmptyString
      else split_lines r (cur ++ String.String a EmptyString)%string
  end.

(** The text up to the closing quote, which must end the line. *)
Fixpoint read_quoted (s : string) (acc : string) : option string :=
  match s with
  | EmptyString => None
  | String.String a r =>
      if Ascii.eqb a quote
      then match r with EmptyString => Some acc | _ => None end
      else read_quoted r (acc ++ String.String a EmptyString)%string
  end.

Fixpoint read_member (s : string) (key : string) : option (string * value) :=
  match s with
  | EmptyString => None
  | String.String a r =>
      if is_letter a
      then read_member r (key ++ String.String a EmptyString)%string
      else
        match key, a, r with
        | String.String _ _, ":"%char,
          String.String " "%char (String.String q text) =>
            if Ascii.eqb q quote
            then option_map (fun t => (key, String t)) (read_quoted text EmptyString)
            else None
        | _, _, _ => None
        end
  end.

Fixpoint read_members (lines : list string) : option (list (string * value)) :=
  match lines with
  | [] => Some []
  | EmptyString :: rest => read_members rest
  | l :: rest =>
      match read_member l EmptyString, read_members rest with
      | Some m, Some ms => Some (m :: ms)
      | _, _ => None
      end
  end.

(** The map with the member [kv] set, the keys kept in increasing order. *)
Fixpoint put (kv : string * value) (m : list (string * value))
  : list (string * value) :=
  match m with
  | [] => [kv]
  | kv' :: r =>
      match String.compare (fst kv) (fst kv') with
      | Lt => kv :: m
      | Eq => kv :: r
      | Gt => kv' :: put kv r
      end
  end.

Definition to_map (members : list (string * value)) : list (string * value) :=
  fold_left (fun m kv => put kv m) members [].

Definition flat_yamlToJSON (y : string) : error + value :=
  match read_members (split_lines y EmptyString) with
  | Some ms =>
      match to_map ms with
      | [] => inr Null
      | m => inr (Object m)
      end
  | None => inl (errors_New "yaml: outside the fragment of flat mappings")
  end.

(** The members are in increasing order of their keys. *)
Definition key_lt (a b : string * value) : Prop :=
  String.ltb (fst a) (fst b) = true.

End File.

(** ** Sample descriptors, messages and collaborators *)

Module Sample.
Import Emitter.

Definition es : EmitterEventSource unit :=
  {| Broker := "x"; ChannelKey := "k"; ChannelName := "c";
     Username := None; Password := None; ConnectionBackoff := None;
     JSONBody := false; TLS := None; es_Metadata := [] |}.

Definition es_json : EmitterEventSource unit :=
  {| Broker := "x"; ChannelKey := "k"; ChannelName := "c";
     Username := None; Password := None; ConnectionBackoff := None;
     JSONBody := true; TLS := None; es_Metadata := [] |}.

Definition es_secret : EmitterEventSource unit :=
  {| Broker := "x"; ChannelKey := "k"; ChannelName := "c";
     Username := Some {| Name := "emitter-secret"; Key := "username" |};
     Password := None; ConnectionBackoff := None;
     JSONBody := false; TLS := None; es_Metadata := [] |}.

(** The same descriptor with its two metadata entries listed in either
    order. *)
Definition es_ab : EmitterEventSource unit :=
  {| Broker := "x"; ChannelKey := "k"; ChannelName := "c";
     Username := None; Password := None; ConnectionBackoff := None;
     JSONBody := false; TLS := None;
     es_Metadata := [("a", "1"); ("b", "2")] |}.

Definition es_ba : EmitterEventSource unit :=
  {| Broker := "x"; ChannelKey := "k"; ChannelName := "c";
     Username := None; Password := None; ConnectionBackoff := None;
     JSONBody := false; TLS := None;
     es_Metadata := [("b", "2"); ("a", "1")] |}.

Definition el_ab : EventListener unit :=
  {| EventSourceName := "emitter"; EventName := "example";
     EmitterEventSource_ := es_ab |}.

Definition el_ba : EventListener unit :=
  {| EventSourceName := "emitter"; EventName := "example";
     EmitterEventSource_ := es_ba |}.

Definition el : EventListener unit :=
  {| EventSourceName := "emitter"; EventName := "example";
     EmitterEventSource_ := es |}.

Definition el_json : EventListener unit :=
  {| EventSourceName := "emitter"; EventName := "example";
     EmitterEventSource_ := es_json |}.

Definition el_secret : EventListener unit :=
  {| EventSourceName := "emitter"; EventName := "example";
     EmitterEventSource_ := es_secret |}.

Definition hello : Message :=
  {| msg_Topic := "c"; msg_Payload := list_byte_of_string "hello" |}.

(** The payload [{"a":1}] and the same with white space, [{ "a" : 1 }] *)
Definition a1 : Message :=
  {| msg_Topic := "c";
     msg_Payload := [x7b; x22; x61; x22; x3a; x31; x7d] |}.

Definition a1_spaced : Message :=
  {| msg_Topic := "c";
     msg_Payload := [x7b; x20; x22; x61; x22; x20; x3a; x20; x31; x20; x7d] |}.

(** A pipeline that counts the calls and accepts, or refuses, every event. *)
Definition accept (eventBytes : list byte) (n : nat) : option error * nat :=
  (None, Datatypes.S n).

Definition refuse (eventBytes : list byte) (n : nat) : option error * nat :=
  (Some (errors_New "pipeline closed"), Datatypes.S n).

Definition backoff : Backoff := {| Duration := 1000; Factor := 1; Steps := 5 |}.

(** A broker that is reached at once and delivers the given messages. *)
Definition world (msgs : list (Message * N)) : World unit unit :=
  {| GetTLSConfig := fun _ => inr tt;
     GetSecretFromVolume := fun _ => inr "secret";
     DefaultBackoff := backoff;
     client_Connect := fun _ => None;
     client_Subscribe := fun _ _ => None;
     inbound := msgs;
     client_Unsubscribe := fun _ _ => None |}.

(** A broker that refuses every connection. *)
Definition world_down : World unit unit :=
  {| GetTLSConfig := fun _ => inr tt;
     GetSecretFromVolume := fun _ => inr "secret";
     DefaultBackoff := backoff;
     client_Connect := fun _ => Some (errors_New "connection refused");
     client_Subscribe := fun _ _ => None;
     inbound := [];
     client_Unsubscribe := fun _ _ => None |}.

(** A volume from which no secret can be read. *)
Definition world_no_secret : World unit unit :=
  {| GetTLSConfig := fun _ => inr tt;
     GetSecretFromVolume := fun _ => inl (errors_New "no such file");
     DefaultBackoff := backoff;
     client_Connect := fun _ => None;
     client_Subscribe := fun _ _ => None;
     inbound := [];
     client_Unsubscribe := fun _ _ => None |}.

(** A configuration block of the file gateway that names no directory and
    no path. *)
Definition only_type : string := "type: 'CREATE'".

End Sample.

(** ** Further observations on the runs of the listener *)

Module Run.
Import Emitter.

Section Observations.

Variable TLSConfig : Type.
Variable tls_Config : Type.

Definition is_Subscribe (e : effect tls_Config) : bool :=
  match e with ClientSubscribe _ _ _ => true | _ => false end.

Definition is_Unsubscribe (e : effect tls_Config) : bool :=
  match e with ClientUnsubscribe _ _ _ => true | _ => false end.

Definition is_NewClient (e : effect tls_Config) : bool :=
  match e with NewClient _ => true | _ => false end.

(** The effects of a run up to its subscription. *)
Definition is_startup (e : effect tls_Config) : bool :=
  match e with
  | LogInfo _ | NewClient _ | ClientConnect _ | ClientSubscribe _ _ _ => true
  | _ => false
  end.

(** The event of the message can be serialised. *)
Definition serialisable (es : EmitterEventSource TLSConfig)
           (message : Message * N) : bool :=
  match Marshal (normalize es (fst message)) with
  | inr _ => true
  | inl _ => false
  end.

(** The TLS configuration, if the descriptor has one, is resolved. *)
Definition tls_resolves (w : World TLSConfig tls_Config)
           (es : EmitterEventSource TLSConfig) : Prop :=
  match TLS es with
  | Some t => exists c, GetTLSConfig w t = inr c
  | None => True
  end.

(** The secret, if the descriptor refers to one, is read. *)
Definition secret_resolves (w : World TLSConfig tls_Config)
           (sel : option SecretKeySelector) : Prop :=
  match sel with
  | Some u => exists v, GetSecretFromVolume w u = inr v
  | None => True
  end.

End Observations.

Arguments is_Subscribe {tls_Config}.
Arguments is_Unsubscribe {tls_Config}.
Arguments is_NewClient {tls_Config}.
Arguments is_startup {tls_Config}.
Arguments serialisable {TLSConfig}.
Arguments tls_resolves {TLSConfig tls_Config}.
Arguments secret_resolves {TLSConfig tls_Config}.

(** A broker that is reached but refuses the subscription. *)
Definition world_no_channel : World unit unit :=
  {| GetTLSConfig := fun _ => inr tt;
     GetSecretFromVolume := fun _ => inr "secret";
     DefaultBackoff := Sample.backoff;
     client_Connect := fun _ => None;
     client_Subscribe := fun _ _ => Some (errors_New "not authorized");
     inbound := [(Sample.hello, 1%N)];
     client_Unsubscribe := fun _ _ => None |}.

(** A descriptor with TLS and both secrets, and collaborators that resolve
    none of them. *)
Definition es_tls : EmitterEventSource unit :=
  {| Broker := "x"; ChannelKey := "k"; ChannelName := "c";
     Username := Some {| Name := "emitter-secret"; Key := "username" |};
     Password := Some {| Name := "emitter-secret"; Key := "password" |};
     ConnectionBackoff := None;
     JSONBody := false; TLS := Some tt; es_Metadata := [] |}.

Definition el_tls : EventListener unit :=
  {| EventSourceName := "emitter"; EventName := "example";
     EmitterEventSource_ := es_tls |}.

Definition world_no_tls : World unit unit :=
  {| GetTLSConfig := fun _ => inl (errors_New "no certificate");
     GetSecretFromVolume := fun _ => inl (errors_New "no such file");
     DefaultBackoff := Sample.backoff;
     client_Connect := fun _ => None;
     client_Subscribe := fun _ _ => None;
     inbound := [];
     client_Unsubscribe := fun _ _ => None |}.

(** Three messages of which the second is not JSON. *)
Definition three : list (Message * N) :=
  [(Sample.a1, 1%N); (Sample.hello, 2%N); (Sample.a1_spaced, 3%N)].

End Run.

(** ** Further sample configuration blocks *)

Module Parse.
Import File.

(** The members that the decoding reads: those that select a field and
    are not null. *)
Definition relevant (kv : string * value) : bool :=
  match find_field (fst kv), snd kv with
  | Some _, Null => false
  | Some _, _ => true
  | None, _ => false
  end.

Definition newline : string := String.String "010"%char EmptyString.

(** A block with a key that names no field, and blocks that give the
    type twice, under keys that differ in case. *)
Definition with_colour : string :=
  "colour: 'red'" ++ newline ++ "type: 'CREATE'".

Definition type_twice : string :=
  "type: 'CREATE'" ++ newline ++ "Type: 'REMOVE'".

Definition type_twice_reversed : string :=
  "Type: 'REMOVE'" ++ newline ++ "type: 'CREATE'".

End Parse.

(** ** The scanner on what the encoder writes *)

Module Wire.
Import JSON.

(** The scanner in step [f] with the parse states [ps], before the end of
    the top-level value and without error. *)
Definition at_step (f : stepfn) (ps : list parse_state) : scanner :=
  mkScanner f false ps None.

(** The bytes at or above [utf8.RuneSelf]. *)
Definition high (b : byte) : bool := negb (Byte.to_N b <? UTF8.RuneSelf)%N.

(** The steps in which a string literal may begin. *)
Definition begins_string (f : stepfn) : bool :=
  match f with
  | stepBeginValue | stepBeginValueOrEmpty | stepBeginString
  | stepBeginStringOrEmpty => true
  | _ => false
  end.

(** The steps in which the key of an object member may begin. *)
Definition begins_key (f : stepfn) : bool :=
  match f with
  | stepBeginString | stepBeginStringOrEmpty => true
  | _ => false
  end.

(** [v] is read as one value of an object nested in [ps]. *)
Definition reads_value (ps : list parse_state) (v : list byte) : Prop :=
  checkValid_loop (at_step stepBeginValue (parseObjectValue :: ps)) v
  = Some (at_step stepEndValue (parseObjectValue :: ps)).

(** [p] is read as one member, a key with its value, of an object nested in
    [ps]. *)
Definition reads_member (ps : list parse_state) (p : list byte) : Prop :=
  forall f, begins_key f = true ->
    checkValid_loop (at_step f (parseObjectKey :: ps)) p
    = Some (at_step stepEndValue (parseObjectValue :: ps)).

End Wire.

(** ** Invariants of the scanner and of [compact], used in the proofs *)

Module Inv.
Import JSON Tokens.

(** An error is recorded exactly when the scanner is in its error state. *)
Definition consistent (s : scanner) : Prop :=
  step s = stepError <-> err s <> None.

Definition quiet (s : scanner) : Prop :=
  step s <> stepError /\ err s = None.

(** The outcome of a step: the scanner stays consistent, and an error
    result is a recorded error. *)
Definition sound (r : scanner * scan_op) : Prop :=
  consistent (fst r) /\ (snd r = scanError <-> err (fst r) <> None)
  \/ (* the one exception: [stepEndTop] records the error and reports it
        on the next byte *)
     (step (fst r) = stepError /\ err (fst r) <> None /\ snd r = scanEnd).

Definition failed (s : scanner) : Prop :=
  step s = stepError /\ err s <> None.

Inductive class : Type :=
| KBegin | KEnd | KWord | KStr | KEsc | KU0 | KU1 | KU2 | KU3 | KErr.

Definition cls (f : stepfn) : class :=
  match f with
  | stepBeginValue | stepBeginValueOrEmpty | stepBeginStringOrEmpty
  | stepBeginString => KBegin
  | stepEndValue | stepEndTop => KEnd
  | stepInString => KStr
  | stepInStringEsc => KEsc
  | stepInStringEscU => KU0
  | stepInStringEscU1 => KU1
  | stepInStringEscU12 => KU2
  | stepInStringEscU123 => KU3
  | stepError => KErr
  | _ => KWord
  end.

(** The bytes that [compact] replaces by an escape. *)
Definition special (c : byte) : bool := isHTMLByte c || Byte.eqb c xe2.

(** The classes a step may lead to, each with whether the byte is dropped. *)
Definition next (k : class) (c : byte) : list (class * bool) :=
  match k with
  | KBegin =>
      if isSpace c then [(KBegin, true)]
      else if Byte.eqb c x22 then [(KStr, false)]
      else if isPunct c then [(KBegin, false); (KEnd, false)]
      else if special c then []
      else [(KWord, false)]
  | KWord =>
      if isSpace c then [(KEnd, true)]
      else if Byte.eqb c x22 then []
      else if isPunct c then [(KBegin, false); (KEnd, false)]
      else if special c then []
      else [(KWord, false); (KEnd, false)]
  | KEnd =>
      if isSpace c then [(KEnd, true)]
      else if isPunct c then [(KBegin, false); (KEnd, false)]
      else []
  | KStr =>
      if Byte.eqb c x22 then [(KEnd, false)]
      else if Byte.eqb c x5c then [(KEsc, false)]
      else if (Byte.to_N c <? 32)%N then []
      else [(KStr, false)]
  | KEsc =>
      if Byte.eqb c x75 then [(KU0, false)]
      else if isSpace c || special c then []
      else [(KStr, false)]
  | KU0 => if isHex c then [(KU1, false)] else []
  | KU1 => if isHex c then [(KU2, false)] else []
  | KU2 => if isHex c then [(KU3, false)] else []
  | KU3 => if isHex c then [(KStr, false)] else []
  | KErr => []
  end.


(** The bytes that follow [0xE2] in the encodings of U+2028 and U+2029. *)
Definition plain (c : byte) : bool :=
  match c with
  | x80 | xa8 | xa9 => true
  | _ => false
  end.

(** What [compact] writes for the byte [c], and the bytes it has then
    already passed, [dropped] telling whether the scanner has it skipped. *)
Definition emitted (skip : nat) (c : byte) (rest : list byte) (dropped : bool)
  : list byte * nat :=
  let out1 := if isHTMLByte c then escape_u00 c else [] in
  let rel1 := if isHTMLByte c then 1 else skip in
  let '(out2, rel2) :=
    match isLineSep c rest with
    | Some b2 => (escape_u202 b2, 3)
    | None => ([], rel1)
    end in
  if dropped then (out1 ++ out2, 0)
  else (out1 ++ out2 ++ match rel2 with 0 => [c] | _ => [] end, pred rel2).

(** The tokens read over [src] and the mode reached. *)
Fixpoint lex_run (l : mode) (src : list byte) : list token * mode :=
  match src with
  | [] => ([], l)
  | c :: rest =>
      let '(out, l') := lex_step l c in
      let '(out', l'') := lex_run l' rest in
      (out ++ out', l'')
  end.

(** The reader of the text and the reader of what [compact] has written of
    it agree, when the scanner is in a state of class [k] and [compact] is
    [skip] bytes ahead: they are in the same mode, except that after white
    space the first has closed a word that the second still holds ([pre]),
    and that the second has read the [skip] bytes ahead. *)
Definition related (k : class) (skip : nat) (src : list byte)
           (l1 l2 : mode) (pre : list token) : Prop :=
  match k with
  | KBegin => skip = 0 /\ l1 = LOut [] /\ l2 = LOut [] /\ pre = []
  | KWord => skip = 0 /\ exists w, l1 = LOut w /\ l2 = LOut w /\ pre = []
  | KEnd =>
      skip = 0
      /\ exists w, l2 = LOut w
                   /\ ((l1 = LOut w /\ pre = [])
                       \/ (l1 = LOut [] /\ pre = flush w))
  | KStr =>
      exists s, l1 = LStr s
                /\ l2 = LStr (s ++ map CByte (firstn skip src))
                /\ pre = []
                /\ List.length (firstn skip src) = skip
                /\ forallb plain (firstn skip src) = true
  | KEsc => skip = 0 /\ exists s, l1 = LEsc s /\ l2 = LEsc s /\ pre = []
  | KU0 => skip = 0 /\ exists s, l1 = LU s [] /\ l2 = LU s [] /\ pre = []
  | KU1 =>
      skip = 0 /\ exists s d1, l1 = LU s [d1] /\ l2 = LU s [d1] /\ pre = []
  | KU2 =>
      skip = 0
      /\ exists s d1 d2, l1 = LU s [d1; d2] /\ l2 = LU s [d1; d2] /\ pre = []
  | KU3 =>
      skip = 0
      /\ exists s d1 d2 d3,
          l1 = LU s [d1; d2; d3] /\ l2 = LU s [d1; d2; d3] /\ pre = []
  | KErr => False
  end.

(** The scanner after a space. *)
Definition spaced (s : scanner) : scanner := fst (scan_step s x20).

(** The scanner of the text and the scanner of what [compact] has written
    of it are in the same state, up to white space that the first has read
    and the second has not. *)
Definition in_step (s1 s2 : scanner) : Prop :=
  s1 = s2 \/ s1 = spaced s2.

End Inv.

(** * Properties *)

Lemma string_append_assoc (a b c : string) :
  ((a ++ b) ++ c)%string = (a ++ (b ++ c))%string.
Proof. induction a as [| x a IH]; simpl; [reflexivity | now rewrite IH]. Qed.

(** * Properties of the JSON scanner *)

Module JSONFacts.
Import JSON Inv.

Lemma sound_error s ctx : sound (scan_error s ctx).
Proof. left. unfold consistent. cbn. repeat split; intros; try discriminate; auto. Qed.

Lemma sound_quiet s v : quiet s -> v <> scanError -> sound (s, v).
Proof.
  intros [H1 H2] Hv. left. unfold consistent. cbn. rewrite H2.
  repeat split; intros; try contradiction; try congruence.
Qed.

Lemma quiet_with_step s f : err s = None -> f <> stepError -> quiet (with_step s f).
Proof. now split. Qed.

Lemma quiet_set_top s p : quiet s -> quiet (set_top s p).
Proof. now intros [H1 H2]. Qed.

Lemma quiet_pop s : err s = None -> quiet (popParseState s).
Proof.
  intros H. unfold popParseState. destruct (tl (parseState s)); split; cbn; auto; discriminate.
Qed.

Create HintDb scan.
#[local] Hint Resolve sound_error sound_quiet quiet_with_step quiet_set_top quiet_pop : scan.
#[local] Hint Extern 1 (_ <> _) => discriminate : scan.
#[local] Hint Extern 1 (err _ = None) => (cbn; assumption) : scan.

Lemma sound_EndTop s c : err s = None -> step s = stepEndTop -> sound (do_stepEndTop s c).
Proof.
  intros H1 H2. unfold do_stepEndTop. destruct (negb (isSpace c)).
  - right. cbn. repeat split; discriminate.
  - apply sound_quiet; [split; [rewrite H2 |] |]; auto with scan.
Qed.

Lemma sound_EndValue s c : err s = None -> sound (do_stepEndValue s c).
Proof.
  intros H. unfold do_stepEndValue. destruct (parseState s) as [| ps r] eqn:E.
  - apply sound_EndTop; auto.
  - destruct (isSpace c); [auto with scan |].
    destruct ps; repeat (match goal with |- context [if ?b then _ else _] => destruct b end);
      auto 6 with scan.
Qed.

Lemma sound_push s p v : quiet s -> v <> scanError -> sound (pushParseState s p v).
Proof.
  intros [H1 H2] Hv. unfold pushParseState.
  match goal with |- context [if ?b then _ else _] => destruct b end; auto with scan.
  apply sound_quiet; auto. now split.
Qed.

#[local] Hint Resolve sound_EndValue sound_push sound_EndTop : scan.

Ltac ifs := repeat match goal with |- context [if ?b then _ else _] => destruct b end.

Lemma scan_step_sound s c : quiet s -> sound (scan_step s c).
Proof.
  intros Q. pose proof Q as [Q1 Q2].
  unfold scan_step. destruct (step s) eqn:St;
    unfold do_stepBeginValueOrEmpty, do_stepBeginStringOrEmpty,
      do_stepBeginString, do_stepInString,
      do_hex, do_stepNeg, do_step1, do_step0, do_stepDot,
      do_stepDot0, do_stepE, do_stepESign, do_stepE0, do_letter;
    try congruence.
  all: try (unfold do_stepBeginValue; ifs; auto with scan;
            destruct c; ifs; auto 6 with scan; fail).
  all: try (ifs; auto 6 with scan; fail).
  all: try (ifs; auto with scan; apply sound_EndValue; cbn; auto; fail).
  all: try (unfold do_stepInStringEsc; destruct c; auto 6 with scan; fail).
  all: try (apply sound_EndTop; auto; fail).
Qed.


Lemma scan_step_failed s c : failed s -> scan_step s c = (s, scanError).
Proof. intros [H _]. unfold scan_step. now rewrite H. Qed.

Lemma eof_failed s : failed s -> snd (eof s) = scanError.
Proof. intros [_ H]. unfold eof. destruct (err s); [reflexivity | contradiction]. Qed.

(** After a step from a quiet state the scanner is quiet again, or it has
    failed; a step that reports an error has failed. *)
Lemma scan_step_quiet_or_failed s c :
  quiet s ->
  (quiet (fst (scan_step s c)) /\ snd (scan_step s c) <> scanError)
  \/ failed (fst (scan_step s c)).
Proof.
  intros Q. destruct (scan_step_sound s c Q) as [[C E] | (H1 & H2 & H3)].
  - assert (D : err (fst (scan_step s c)) = None
               \/ err (fst (scan_step s c)) <> None)
      by (destruct (err (fst (scan_step s c)));
          [right; discriminate | left; reflexivity]).
    destruct D as [Er | Er].
    + left. split; [split |].
      * intros H. apply C in H. contradiction.
      * exact Er.
      * intros H. apply E in H. contradiction.
    + right. split; [apply C |]; assumption.
  - right. now split.
Qed.

Lemma compact_loop_failed e s k src :
  failed s -> fst (compact_loop e s k src) = s.
Proof.
  intros F. destruct src as [| c rest]; [reflexivity |].
  cbn [compact_loop]. rewrite (scan_step_failed s c F).
  destruct (e && isHTMLByte c); destruct (if e then isLineSep c rest else None);
    reflexivity.
Qed.

Lemma checkValid_loop_failed s src :
  failed s -> checkValid_loop s src = None \/ checkValid_loop s src = Some s.
Proof.
  intros F. destruct src as [| c rest]; [now right |]. left.
  cbn [checkValid_loop]. now rewrite (scan_step_failed s c F).
Qed.

Lemma is_scanError_iff v : is_scanError v = true <-> v = scanError.
Proof. destruct v; cbn; split; congruence. Qed.

Lemma compact_loop_fst e s k c rest :
  fst (compact_loop e s k (c :: rest))
  = if is_scanError (snd (scan_step s c)) then fst (scan_step s c)
    else fst (compact_loop e (fst (scan_step s c))
                (if ge_scanSkipSpace (snd (scan_step s c)) then 0
                 else pred (match (if e then isLineSep c rest else None) with
                            | Some _ => 3
                            | None => if e && isHTMLByte c then 1 else k
                            end)) rest).
Proof.
  cbn [compact_loop].
  destruct (e && isHTMLByte c);
    destruct (if e then isLineSep c rest else None);
    destruct (scan_step s c) as [s1 v]; cbn [fst snd];
    destruct v; cbn [ge_scanSkipSpace is_scanError];
    try reflexivity;
    match goal with
    | |- context [compact_loop ?a ?b ?c ?d] => destruct (compact_loop a b c d)
    end; reflexivity.
Qed.

(** [compact] and [checkValid] leave the scanner in the same state, unless
    both fail. *)
Lemma compact_loop_checkValid e src : forall s k,
  quiet s ->
  match checkValid_loop s src with
  | Some s' => fst (compact_loop e s k src) = s'
  | None => failed (fst (compact_loop e s k src))
  end.
Proof.
  induction src as [| c rest IH]; intros s k Q; [reflexivity |].
  rewrite compact_loop_fst. cbn [checkValid_loop].
  destruct (scan_step_quiet_or_failed s c Q) as [[Q1 Hv] | F].
  - destruct (scan_step s c) as [s1 v]. cbn [fst snd] in *.
    destruct (is_scanError v) eqn:Ev; [apply is_scanError_iff in Ev; contradiction |].
    apply IH. exact Q1.
  - destruct (scan_step s c) as [s1 v]. cbn [fst snd] in *.
    destruct (is_scanError v); [exact F |].
    rewrite (compact_loop_failed e s1 _ rest F).
    destruct (checkValid_loop_failed s1 rest F) as [-> | ->]; [exact F | reflexivity].
Qed.

Lemma quiet_reset : quiet reset.
Proof. split; [discriminate | reflexivity]. Qed.

(** [compact] succeeds exactly on the valid documents. *)
Lemma compact_Valid e src :
  Valid src = true <-> exists out, compact e src = inr out.
Proof.
  unfold Valid, compact.
  pose proof (compact_loop_checkValid e src reset 0 quiet_reset) as H.
  destruct (compact_loop e reset 0 src) as [s out]. cbn [fst] in H.
  destruct (checkValid_loop reset src) as [s' |].
  - subst s'. destruct (eof s) as [s2 v]. cbn [snd].
    destruct (is_scanError v); cbn; split; intros; eauto; try discriminate.
    destruct H; discriminate.
  - pose proof (eof_failed s H) as E. destruct (eof s) as [s2 v].
    cbn [snd] in E. subst v. cbn. split; [discriminate |].
    intros [o Ho]. discriminate.
Qed.

Lemma compact_not_Valid e src :
  Valid src = false <-> exists er, compact e src = inl er.
Proof.
  split.
  - intros H. destruct (compact e src) as [er | out] eqn:E; [eauto |].
    assert (Valid src = true) by (apply (compact_Valid e); eauto). congruence.
  - intros [er H]. destruct (Valid src) eqn:V; [| reflexivity].
    apply (compact_Valid e) in V. destruct V as [o Ho]. congruence.
Qed.

End JSONFacts.

(** * [compact] keeps the content of a text *)

Module CompactFacts.
Import JSON Tokens Inv JSONFacts.

Lemma scan_step_next s c :
  quiet s ->
  err (fst (scan_step s c)) = None ->
  In (cls (step (fst (scan_step s c))), ge_scanSkipSpace (snd (scan_step s c)))
     (next (cls (step s)) c).
Proof.
  intros [Q1 Q2]. destruct s as [st et ps er]. cbn in Q1, Q2. subst er.
  destruct st; [.. | contradiction].
  all: destruct c; cbn -[N.leb N.of_nat];
    try (intros; discriminate); try (intros; tauto).
  all: try (destruct (N.leb _ _); cbn; intros; try discriminate; tauto).
  all: try (destruct ps as [| [] [| ? ?]]; cbn; intros; try discriminate; tauto).
  all: unfold pushParseState; cbn -[N.leb N.of_nat];
    destruct (N.leb _ _); cbn; intros; try discriminate; tauto.
Qed.

Lemma lex_run_one l c : lex_run l [c] = lex_step l c.
Proof.
  cbn [lex_run]. destruct (lex_step l c) as [o l']. now rewrite app_nil_r.
Qed.

Lemma lex_lex_run bs : forall l Y,
  lex l (bs ++ Y) = fst (lex_run l bs) ++ lex (snd (lex_run l bs)) Y.
Proof.
  induction bs as [| c bs IH]; intros l Y; [reflexivity |].
  cbn [app lex lex_run]. destruct (lex_step l c) as [o l'].
  rewrite IH. destruct (lex_run l' bs) as [o' l'']. cbn [fst snd].
  now rewrite app_assoc.
Qed.

Lemma isLineSep_Some c rest b2 :
  isLineSep c rest = Some b2 ->
  c = xe2 /\ (b2 = xa8 \/ b2 = xa9) /\ exists r, rest = x80 :: b2 :: r.
Proof.
  unfold isLineSep. destruct c; try discriminate.
  destruct rest as [| b1 rest]; [discriminate |].
  destruct b1; try discriminate.
  destruct rest as [| b rest]; [discriminate |].
  destruct b; try discriminate; intros [= <-]; eauto.
Qed.

Lemma not_special c :
  special c = false -> isHTMLByte c = false /\ forall rest, isLineSep c rest = None.
Proof.
  unfold special. intros H. apply orb_false_iff in H as [H1 H2]. split; [exact H1 |].
  intros rest. destruct (isLineSep c rest) eqn:E; [| reflexivity].
  apply isLineSep_Some in E as [-> _]. discriminate.
Qed.

Lemma emitted_copy c rest :
  isHTMLByte c = false -> isLineSep c rest = None ->
  emitted 0 c rest false = ([c], 0)
  /\ emitted 0 c rest true = ([], 0)
  /\ forall k, emitted (S k) c rest false = ([], k).
Proof. intros H1 H2. unfold emitted. rewrite H1, H2. auto. Qed.

Lemma emitted_plain c rest :
  special c = false ->
  emitted 0 c rest false = ([c], 0)
  /\ emitted 0 c rest true = ([], 0)
  /\ forall k, emitted (S k) c rest false = ([], k).
Proof.
  intros H. apply not_special in H as [H1 H2]. now apply emitted_copy.
Qed.

Lemma special_facts c :
  (isSpace c = true -> special c = false)
  /\ (isPunct c = true -> special c = false)
  /\ (isHex c = true -> special c = false)
  /\ (plain c = true -> special c = false)
  /\ (Byte.eqb c x22 = true -> special c = false)
  /\ (Byte.eqb c x5c = true -> special c = false)
  /\ (Byte.eqb c x75 = true -> special c = false).
Proof. destruct c; cbn; repeat split; congruence. Qed.

Lemma sp_space c : isSpace c = true -> special c = false.
Proof. apply special_facts. Qed.
Lemma sp_punct c : isPunct c = true -> special c = false.
Proof. apply special_facts. Qed.
Lemma sp_hex c : isHex c = true -> special c = false.
Proof. apply special_facts. Qed.
Lemma sp_plain c : plain c = true -> special c = false.
Proof. apply special_facts. Qed.
Lemma sp_quote c : Byte.eqb c x22 = true -> special c = false.
Proof. apply special_facts. Qed.
Lemma sp_backslash c : Byte.eqb c x5c = true -> special c = false.
Proof. apply special_facts. Qed.
Lemma sp_u c : Byte.eqb c x75 = true -> special c = false.
Proof. apply special_facts. Qed.

Create HintDb special.
#[local] Hint Resolve sp_space sp_punct sp_hex sp_plain sp_quote sp_backslash
  sp_u : special.

Lemma related_KStr_0 rest s : related KStr 0 rest (LStr s) (LStr s) [].
Proof. cbn. exists s. rewrite app_nil_r. auto. Qed.

(** Both readers in the same mode, and a byte that is copied. *)
Lemma synced_copy l c rest k1 :
  isHTMLByte c = false -> isLineSep c rest = None ->
  related k1 0 rest (snd (lex_step l c)) (snd (lex_step l c)) [] ->
  exists pre',
    [] ++ fst (lex_step l c)
    = fst (lex_run l (fst (emitted 0 c rest false))) ++ pre'
    /\ related k1 (snd (emitted 0 c rest false)) rest (snd (lex_step l c))
         (snd (lex_run l (fst (emitted 0 c rest false)))) pre'.
Proof.
  intros H1 H2 R. destruct (emitted_copy c rest H1 H2) as (E & _). rewrite E.
  cbn [fst snd]. rewrite lex_run_one. exists []. now rewrite app_nil_r.
Qed.

Lemma synced l c rest k1 :
  special c = false ->
  related k1 0 rest (snd (lex_step l c)) (snd (lex_step l c)) [] ->
  exists pre',
    [] ++ fst (lex_step l c)
    = fst (lex_run l (fst (emitted 0 c rest false))) ++ pre'
    /\ related k1 (snd (emitted 0 c rest false)) rest (snd (lex_step l c))
         (snd (lex_run l (fst (emitted 0 c rest false)))) pre'.
Proof.
  intros Sp. apply not_special in Sp as [H1 H2]. now apply synced_copy.
Qed.

Lemma html_escape_read c s :
  isHTMLByte c = true ->
  lex_run (LStr s) (escape_u00 c) = ([], LStr (s ++ [CByte c])).
Proof. destruct c; try discriminate; reflexivity. Qed.

Lemma linesep_escape_read b2 s :
  b2 = xa8 \/ b2 = xa9 ->
  lex_run (LStr s) (escape_u202 b2)
  = ([], LStr (s ++ [CByte xe2; CByte x80; CByte b2])).
Proof. intros [-> | ->]; reflexivity. Qed.

Lemma class_step k0 k c rest l1 l2 pre k1 d :
  In (k1, d) (next k0 c) ->
  related k0 k (c :: rest) l1 l2 pre ->
  exists pre',
    pre ++ fst (lex_step l1 c)
    = fst (lex_run l2 (fst (emitted k c rest d))) ++ pre'
    /\ related k1 (snd (emitted k c rest d)) rest (snd (lex_step l1 c))
         (snd (lex_run l2 (fst (emitted k c rest d)))) pre'.
Proof.
  intros N R.
  destruct k0; cbn [next related] in N, R.
  - (* KBegin *)
    destruct R as (-> & -> & -> & ->).
    destruct (isSpace c) eqn:Sp.
    { destruct N as [[= <- <-] | []].
      destruct (emitted_plain c rest (sp_space c Sp)) as (_ & E & _). rewrite E.
      cbn [fst snd lex_run lex_step]. rewrite Sp. exists []. cbn. auto. }
    destruct (Byte.eqb c x22) eqn:Q.
    { destruct N as [[= <- <-] | []]. apply synced; [auto with special |].
      cbn [lex_step]. rewrite Sp, Q. apply related_KStr_0. }
    destruct (isPunct c) eqn:Pu.
    { destruct N as [[= <- <-] | [[= <- <-] | []]];
        (apply synced; [auto with special |]);
        cbn [lex_step]; rewrite Sp, Q, Pu; cbn; eauto 8. }
    destruct (special c) eqn:S; [destruct N |].
    destruct N as [[= <- <-] | []]. apply synced; [auto with special |].
    cbn [lex_step]. rewrite Sp, Q, Pu. cbn. eauto.
  - (* KEnd *)
    destruct R as (-> & w & -> & R).
    destruct (isSpace c) eqn:Sp.
    { destruct N as [[= <- <-] | []].
      destruct (emitted_plain c rest (sp_space c Sp)) as (_ & E & _). rewrite E.
      cbn [fst snd lex_run]. exists (flush w).
      destruct R as [[-> ->] | [-> ->]]; cbn [lex_step]; rewrite Sp; cbn [fst snd].
      - split; [reflexivity |]. cbn. eauto 8.
      - split; [now rewrite app_nil_r |]. cbn. eauto 8. }
    destruct (isPunct c) eqn:Pu; [| destruct N].
    assert (D : d = false)
      by (destruct N as [[= _ <-] | [[= _ <-] | []]]; reflexivity).
    subst d.
    destruct (emitted_plain c rest (sp_punct c Pu)) as (E & _). rewrite E.
    cbn [fst snd]. rewrite lex_run_one. exists [].
    assert (Q : Byte.eqb c x22 = false) by (destruct c; try discriminate; reflexivity).
    assert (K : related k1 0 rest (LOut []) (LOut []) []).
    { destruct N as [[= <-] | [[= <-] | []]]; cbn; eauto 8. }
    destruct R as [[-> ->] | [-> ->]]; cbn [lex_step]; rewrite Sp, Q, Pu;
      cbn [fst snd]; (split; [now rewrite app_nil_r | exact K]).
  - (* KWord *)
    destruct R as (-> & w & -> & -> & ->).
    destruct (isSpace c) eqn:Sp.
    { destruct N as [[= <- <-] | []].
      destruct (emitted_plain c rest (sp_space c Sp)) as (_ & E & _). rewrite E.
      cbn [fst snd lex_run lex_step]. rewrite Sp. exists (flush w). cbn. eauto 8. }
    destruct (Byte.eqb c x22) eqn:Q; [destruct N |].
    destruct (isPunct c) eqn:Pu.
    { destruct N as [[= <- <-] | [[= <- <-] | []]];
        (apply synced; [auto with special |]);
        cbn [lex_step]; rewrite Sp, Q, Pu; cbn; eauto 8. }
    destruct (special c) eqn:S; [destruct N |].
    destruct N as [[= <- <-] | [[= <- <-] | []]];
      (apply synced; [auto with special |]);
      cbn [lex_step]; rewrite Sp, Q, Pu; cbn; eauto 8.
  - (* KStr *)
    destruct R as (s & -> & -> & -> & Len & Pl).
    destruct k as [| k].
    + cbn [firstn map]. rewrite app_nil_r.
      destruct (Byte.eqb c x22) eqn:Q.
      { destruct N as [[= <- <-] | []]. apply synced; [auto with special |].
        cbn [lex_step]. rewrite Q. cbn. eauto 8. }
      destruct (Byte.eqb c x5c) eqn:B.
      { destruct N as [[= <- <-] | []]. apply synced; [auto with special |].
        cbn [lex_step]. rewrite Q, B. cbn. eauto 8. }
      destruct (Byte.to_N c <? 32)%N; [destruct N |].
      destruct N as [[= <- <-] | []].
      destruct (isHTMLByte c) eqn:H.
      { assert (E : emitted 0 c rest false = (escape_u00 c, 0)).
        { unfold emitted. rewrite H.
          destruct (isLineSep c rest) eqn:L.
          - apply isLineSep_Some in L as [-> _]. discriminate.
          - now rewrite app_nil_r. }
        rewrite E. cbn [fst snd]. rewrite (html_escape_read c s H).
        cbn [fst snd lex_step]. rewrite Q, B. exists []. cbn [fst snd].
        split; [reflexivity |]. apply related_KStr_0. }
      destruct (isLineSep c rest) as [b2 |] eqn:L.
      { pose proof L as L'. apply isLineSep_Some in L' as (-> & Hb & r & ->).
        assert (E : emitted 0 xe2 (x80 :: b2 :: r) false = (escape_u202 b2, 2)).
        { unfold emitted. rewrite L. reflexivity. }
        rewrite E. cbn [fst snd]. rewrite (linesep_escape_read b2 s Hb).
        cbn [fst snd lex_step Byte.eqb]. exists [].
        split; [reflexivity |]. cbn. exists (s ++ [CByte xe2]).
        rewrite <- app_assoc. cbn.
        repeat split. destruct Hb as [-> | ->]; reflexivity. }
      apply synced_copy; [exact H | exact L |].
      cbn [lex_step]. rewrite Q, B. apply related_KStr_0.
    + cbn [firstn] in *. cbn [forallb] in Pl. apply andb_prop in Pl as [Pc Pl].
      assert (next KStr c = [(KStr, false)]) as Nx
          by (destruct c; try discriminate; reflexivity).
      cbn [next] in Nx. rewrite Nx in N. destruct N as [[= <- <-] | []].
      destruct (emitted_plain c rest (sp_plain c Pc)) as (_ & _ & E). rewrite E.
      cbn [fst snd lex_run lex_step].
      assert (Byte.eqb c x22 = false /\ Byte.eqb c x5c = false) as [-> ->]
          by (destruct c; try discriminate; auto).
      exists []. cbn [fst snd]. split; [reflexivity |].
      cbn. exists (s ++ [CByte c]). rewrite <- app_assoc. cbn in *.
      repeat split; auto.
  - (* KEsc *)
    destruct R as (-> & s & -> & -> & ->).
    destruct (Byte.eqb c x75) eqn:U.
    { destruct N as [[= <- <-] | []]. apply synced; [auto with special |].
      cbn [lex_step]. rewrite U. cbn. eauto 8. }
    destruct (isSpace c || special c) eqn:S; [destruct N |].
    apply orb_false_iff in S as [_ S].
    destruct N as [[= <- <-] | []]. apply synced; [auto with special |].
    cbn [lex_step]. rewrite U. apply related_KStr_0.
  - (* KU0 *)
    destruct R as (-> & s & -> & -> & ->).
    destruct (isHex c) eqn:H; [| destruct N].
    destruct N as [[= <- <-] | []]. apply synced; [auto with special |]. cbn. eauto 8.
  - (* KU1 *)
    destruct R as (-> & s & d1 & -> & -> & ->).
    destruct (isHex c) eqn:H; [| destruct N].
    destruct N as [[= <- <-] | []]. apply synced; [auto with special |]. cbn. eauto 8.
  - (* KU2 *)
    destruct R as (-> & s & d1 & d2 & -> & -> & ->).
    destruct (isHex c) eqn:H; [| destruct N].
    destruct N as [[= <- <-] | []]. apply synced; [auto with special |]. cbn. eauto 10.
  - (* KU3 *)
    destruct R as (-> & s & d1 & d2 & d3 & -> & -> & ->).
    destruct (isHex c) eqn:H; [| destruct N].
    destruct N as [[= <- <-] | []]. apply synced; [auto with special |].
    cbn [lex_step snd]. apply related_KStr_0.
  - destruct R.
Qed.

Lemma compact_loop_cons s k c rest :
  compact_loop true s k (c :: rest)
  = let '(s1, v) := scan_step s c in
    if is_scanError v then (s1, fst (emitted k c rest true))
    else
      let '(s2, out) :=
        compact_loop true s1 (snd (emitted k c rest (ge_scanSkipSpace v)))
                     rest in
      (s2, fst (emitted k c rest (ge_scanSkipSpace v)) ++ out).
Proof.
  cbn [compact_loop andb]. unfold emitted.
  destruct (isHTMLByte c); destruct (isLineSep c rest);
    destruct (scan_step s c) as [s1 v];
    destruct v; cbn [ge_scanSkipSpace is_scanError fst snd];
    try reflexivity;
    match goal with
    | |- context [compact_loop ?a ?b ?c ?d] => destruct (compact_loop a b c d)
    end; now rewrite <- ?app_assoc.
Qed.

Lemma related_end k skip l1 l2 pre :
  related k skip [] l1 l2 pre -> pre ++ finish l1 = finish l2.
Proof.
  destruct k; cbn [related].
  - intros (_ & -> & -> & ->). reflexivity.
  - intros (_ & w & -> & [[-> ->] | [-> ->]]); [reflexivity |].
    cbn. now rewrite app_nil_r.
  - intros (_ & w & -> & -> & ->). reflexivity.
  - intros (s & -> & -> & -> & _). reflexivity.
  - intros (_ & s & -> & -> & ->). reflexivity.
  - intros (_ & s & -> & -> & ->). reflexivity.
  - intros (_ & s & d1 & -> & -> & ->). reflexivity.
  - intros (_ & s & d1 & d2 & -> & -> & ->). reflexivity.
  - intros (_ & s & d1 & d2 & d3 & -> & -> & ->). reflexivity.
  - intros [].
Qed.

Lemma failed_err s : failed s -> err s <> None.
Proof. now intros [_ H]. Qed.

(** The tokens of what [compact] writes are the tokens of what it reads. *)
Lemma compact_loop_tokens : forall src s k l1 l2 pre,
  quiet s ->
  related (cls (step s)) k src l1 l2 pre ->
  err (fst (compact_loop true s k src)) = None ->
  pre ++ lex l1 src = lex l2 (snd (compact_loop true s k src)).
Proof.
  induction src as [| c rest IH]; intros s k l1 l2 pre Q R E.
  - cbn. now apply related_end in R.
  - rewrite compact_loop_cons in E |- *.
    pose proof (scan_step_next s c Q) as Nx.
    destruct (scan_step_quiet_or_failed s c Q) as [[Q1 Hv] | F].
    + destruct (scan_step s c) as [s1 v]. cbn [fst snd] in *.
      destruct (is_scanError v) eqn:Ev;
        [apply is_scanError_iff in Ev; contradiction |].
      specialize (Nx (proj2 Q1)).
      destruct (class_step _ k c rest l1 l2 pre _ _ Nx R) as (pre' & E1 & R1).
      specialize (IH s1 (snd (emitted k c rest (ge_scanSkipSpace v)))
                    _ _ _ Q1 R1).
      destruct (compact_loop true s1 _ rest) as [s2 out]. cbn [fst snd] in *.
      specialize (IH E). rewrite lex_lex_run, <- IH.
      cbn [lex]. destruct (lex_step l1 c) as [o l1']. cbn [fst snd] in *.
      now rewrite !app_assoc, E1.
    + exfalso. destruct (scan_step s c) as [s1 v]. cbn [fst snd] in *.
      destruct (is_scanError v).
      * cbn [fst] in E. now apply failed_err in F.
      * pose proof (compact_loop_failed true s1
                      (snd (emitted k c rest (ge_scanSkipSpace v))) rest F) as C.
        destruct (compact_loop true s1 _ rest) as [s2 out]. cbn [fst] in *.
        subst s2. now apply failed_err in F.
Qed.

(** The text written by [compact] has the tokens of the text read, and
    hence denotes the same value. *)
Theorem compact_tokens src out :
  compact true src = inr out -> tokens out = tokens src.
Proof.
  unfold compact, tokens. intros H.
  pose proof (compact_loop_tokens src reset 0 (LOut []) (LOut []) []
                quiet_reset) as T.
  destruct (compact_loop true reset 0 src) as [s o]. cbn [fst snd] in T.
  assert (E : err s = None).
  { unfold eof in H. destruct (err s); [discriminate | reflexivity]. }
  destruct (eof s) as [s' v]. destruct (is_scanError v); [discriminate |].
  injection H as <-. symmetry. apply T; [| exact E]. cbn. auto.
Qed.

Corollary compact_decode src out :
  compact true src = inr out -> decode out = decode src.
Proof. intros H. unfold decode. now rewrite (compact_tokens src out H). Qed.

Lemma dropped_isSpace s c :
  quiet s -> quiet (fst (scan_step s c)) ->
  ge_scanSkipSpace (snd (scan_step s c)) = true -> isSpace c = true.
Proof.
  intros Q Q1 D. pose proof (scan_step_next s c Q (proj2 Q1)) as N.
  rewrite D in N. destruct (cls (step s)); cbn [next] in N;
    repeat match type of N with
      | In _ (if ?b then _ else _) => destruct b eqn:?
      end; cbn in N; intuition congruence.
Qed.

Ltac scanner_cases s :=
  let st := fresh "st" in
  let et := fresh "et" in
  let ps := fresh "ps" in
  let er := fresh "er" in
  destruct s as [st et ps er]; destruct st; destruct ps as [| [] ps].

(** A byte that is dropped leaves the scanner as a space does. *)
Lemma dropped_spaced s c :
  quiet s -> quiet (fst (scan_step s c)) ->
  ge_scanSkipSpace (snd (scan_step s c)) = true ->
  fst (scan_step s c) = spaced s.
Proof.
  intros Q Q1 D. pose proof (dropped_isSpace s c Q Q1 D) as Sp.
  unfold spaced. destruct Q1 as [Q1 Q2]. destruct Q as [Q Q'].
  destruct c; try discriminate Sp; try reflexivity;
    scanner_cases s; cbn in *; try reflexivity; try discriminate;
    try contradiction.
Qed.

(** A second space changes nothing. *)
Lemma spaced_idem s :
  quiet s -> quiet (spaced s) -> spaced (spaced s) = spaced s.
Proof.
  unfold spaced. intros [Q Q'] [Q1 Q2].
  scanner_cases s; cbn in *; try reflexivity; try discriminate;
    try contradiction.
Qed.

Lemma spaced_InString s :
  quiet s -> quiet (spaced s) -> step (spaced s) = stepInString -> spaced s = s.
Proof.
  unfold spaced. intros [Q Q'] [Q1 Q2].
  scanner_cases s; cbn in *; try reflexivity; try discriminate;
    try contradiction.
Qed.

(** After a space the scanner takes every byte that is kept as it would
    have taken it before the space. *)
Lemma spaced_step s c :
  quiet s -> quiet (spaced s) ->
  ge_scanSkipSpace (snd (scan_step (spaced s) c)) = false ->
  quiet (fst (scan_step (spaced s) c)) ->
  scan_step s c = scan_step (spaced s) c.
Proof.
  unfold spaced. intros [Q Q'] [Q1 Q2].
  scanner_cases s; cbn in Q, Q', Q1, Q2 |- *;
    try reflexivity; try discriminate; try contradiction;
    intros D [Q3 Q4];
    destruct c; cbn in D, Q3, Q4 |- *;
    try reflexivity; try discriminate; try contradiction.
Qed.

Lemma checkValid_loop_app a : forall s b,
  checkValid_loop s (a ++ b)
  = match checkValid_loop s a with
    | Some s' => checkValid_loop s' b
    | None => None
    end.
Proof.
  induction a as [| c a IH]; intros s b; [reflexivity |].
  cbn [app checkValid_loop]. destruct (scan_step s c) as [s' v].
  destruct (is_scanError v); [reflexivity | apply IH].
Qed.

Lemma KStr_InString s : cls (step s) = KStr -> step s = stepInString.
Proof. destruct (step s); cbn; congruence. Qed.

Lemma special_not c :
  special c = true ->
  isSpace c = false /\ Byte.eqb c x22 = false /\ isPunct c = false
  /\ isHex c = false /\ Byte.eqb c x75 = false.
Proof. destruct c; cbn; intros; try discriminate; auto. Qed.

(** The bytes that [compact] replaces are accepted in strings only. *)
Lemma special_InString s c :
  quiet s -> quiet (fst (scan_step s c)) -> special c = true ->
  step s = stepInString.
Proof.
  intros Q Q1 Sp. pose proof (scan_step_next s c Q (proj2 Q1)) as N.
  apply KStr_InString.
  destruct (special_not c Sp) as (H1 & H2 & H3 & H4 & H5).
  destruct (cls (step s)); cbn [next] in N;
    rewrite ?H1, ?H2, ?H3, ?H4, ?H5, ?Sp in N; cbn in N;
    try contradiction; reflexivity.
Qed.

Lemma InString_same s c :
  step s = stepInString -> special c = true \/ plain c = true ->
  scan_step s c = (s, scanContinue).
Proof.
  intros St H. unfold scan_step. rewrite St.
  destruct c; cbn in H; try (destruct H; discriminate); reflexivity.
Qed.

Lemma escape_u00_valid s c :
  step s = stepInString -> isHTMLByte c = true ->
  checkValid_loop s (escape_u00 c) = Some s.
Proof.
  destruct s as [st et ps er]. cbn [step]. intros ->.
  destruct c; try discriminate; reflexivity.
Qed.

Lemma escape_u202_valid s b2 :
  step s = stepInString -> b2 = xa8 \/ b2 = xa9 ->
  checkValid_loop s (escape_u202 b2) = Some s.
Proof.
  destruct s as [st et ps er]. cbn [step]. intros -> [-> | ->]; reflexivity.
Qed.

Lemma in_step_InString s1 s2 :
  quiet s1 -> quiet s2 -> in_step s1 s2 -> step s1 = stepInString -> s1 = s2.
Proof.
  intros Q1 Q2 [-> | E] St; [reflexivity |]. subst s1.
  now apply spaced_InString.
Qed.

Lemma related_skip k0 k src l1 l2 pre :
  related k0 (S k) src l1 l2 pre ->
  k0 = KStr /\ exists c rest, src = c :: rest /\ plain c = true.
Proof.
  destruct k0; cbn [related]; try (intros [H _]; discriminate H);
    try contradiction.
  intros (s & _ & _ & _ & Len & Pl). split; [reflexivity |].
  destruct src as [| c rest]; [discriminate Len |].
  cbn in Pl. apply andb_prop in Pl as [Pc _]. eauto.
Qed.

Lemma valid_step s1 s2 k c rest l1 l2 pre :
  quiet s1 -> quiet s2 -> in_step s1 s2 ->
  related (cls (step s1)) k (c :: rest) l1 l2 pre ->
  quiet (fst (scan_step s1 c)) ->
  exists s2',
    checkValid_loop s2
      (fst (emitted k c rest (ge_scanSkipSpace (snd (scan_step s1 c)))))
    = Some s2'
    /\ quiet s2' /\ in_step (fst (scan_step s1 c)) s2'.
Proof.
  intros Q1 Q2 V R Q1'.
  destruct (ge_scanSkipSpace (snd (scan_step s1 c))) eqn:D.
  - (* the byte is dropped *)
    pose proof (dropped_isSpace s1 c Q1 Q1' D) as Sp.
    destruct (emitted_plain c rest (sp_space c Sp)) as (_ & _ & E0).
    assert (E : fst (emitted k c rest true) = []).
    { destruct (not_special c (sp_space c Sp)) as [H1 H2].
      unfold emitted. now rewrite H1, H2. }
    rewrite E. exists s2. split; [reflexivity |]. split; [exact Q2 |].
    rewrite (dropped_spaced s1 c Q1 Q1' D) in *.
    destruct V as [-> | ->]; [now right |].
    right. now apply spaced_idem.
  - destruct (isHTMLByte c) eqn:H.
    { assert (Sp : special c = true) by (unfold special; now rewrite H).
      pose proof (special_InString s1 c Q1 Q1' Sp) as St.
      assert (E : fst (emitted k c rest false) = escape_u00 c).
      { unfold emitted. rewrite H.
        destruct (isLineSep c rest) eqn:L.
        - apply isLineSep_Some in L as [-> _]. discriminate.
        - reflexivity. }
      rewrite E, (InString_same s1 c St (or_introl Sp)). cbn [fst].
      pose proof (in_step_InString s1 s2 Q1 Q2 V St) as <-.
      exists s1. split; [now apply escape_u00_valid |].
      split; [exact Q1 | now left]. }
    destruct (isLineSep c rest) as [b2 |] eqn:L.
    { pose proof L as L'. apply isLineSep_Some in L' as (-> & Hb & r & ->).
      pose proof (special_InString s1 xe2 Q1 Q1' eq_refl) as St.
      assert (E : fst (emitted k xe2 (x80 :: b2 :: r) false) = escape_u202 b2).
      { unfold emitted. rewrite L. reflexivity. }
      rewrite E, (InString_same s1 xe2 St (or_introl eq_refl)). cbn [fst].
      pose proof (in_step_InString s1 s2 Q1 Q2 V St) as <-.
      exists s1. split; [now apply escape_u202_valid |].
      split; [exact Q1 | now left]. }
    destruct k as [| k].
    + destruct (emitted_copy c rest H L) as (E & _). rewrite E. cbn [fst].
      assert (S2 : scan_step s2 c = scan_step s1 c).
      { destruct V as [-> | ->]; [reflexivity |]. now apply spaced_step. }
      cbn [checkValid_loop]. rewrite S2.
      destruct (scan_step s1 c) as [s1' v]. cbn [fst snd] in *.
      assert (is_scanError v = false) as -> by (destruct v; cbn in *; congruence).
      exists s1'. split; [reflexivity |]. split; [exact Q1' | now left].
    + destruct (emitted_copy c rest H L) as (_ & _ & E). rewrite E. cbn [fst].
      apply related_skip in R as (K & c' & rest' & [= <- <-] & Pc).
      rewrite (InString_same s1 c (KStr_InString s1 K) (or_intror Pc)).
      cbn [fst]. exists s2. split; [reflexivity |]. split; [exact Q2 | exact V].
Qed.

(** What [compact] writes is accepted by the scanner. *)
Lemma compact_loop_valid : forall src s1 s2 k l1 l2 pre,
  quiet s1 -> quiet s2 -> in_step s1 s2 ->
  related (cls (step s1)) k src l1 l2 pre ->
  err (fst (compact_loop true s1 k src)) = None ->
  exists s2',
    checkValid_loop s2 (snd (compact_loop true s1 k src)) = Some s2'
    /\ quiet s2' /\ in_step (fst (compact_loop true s1 k src)) s2'.
Proof.
  induction src as [| c rest IH]; intros s1 s2 k l1 l2 pre Q1 Q2 V R E.
  - cbn. eauto.
  - rewrite compact_loop_cons in E |- *.
    pose proof (scan_step_next s1 c Q1) as Nx.
    pose proof (valid_step s1 s2 k c rest l1 l2 pre Q1 Q2 V R) as VS.
    destruct (scan_step_quiet_or_failed s1 c Q1) as [[Q1' Hv] | F].
    + destruct (scan_step s1 c) as [s1' v]. cbn [fst snd] in *.
      destruct (is_scanError v) eqn:Ev;
        [apply is_scanError_iff in Ev; contradiction |].
      specialize (Nx (proj2 Q1')).
      destruct (class_step _ k c rest l1 l2 pre _ _ Nx R) as (pre' & _ & R1).
      destruct (VS Q1') as (s2' & C & Q2' & V').
      specialize (IH s1' s2' (snd (emitted k c rest (ge_scanSkipSpace v)))
                    _ _ _ Q1' Q2' V' R1).
      destruct (compact_loop true s1' _ rest) as [s1f out]. cbn [fst snd] in *.
      destruct (IH E) as (s2f & Cf & Qf & Vf).
      exists s2f. rewrite checkValid_loop_app, C. auto.
    + exfalso. destruct (scan_step s1 c) as [s1' v]. cbn [fst snd] in *.
      destruct (is_scanError v).
      * cbn [fst] in E. now apply failed_err in F.
      * pose proof (compact_loop_failed true s1'
                      (snd (emitted k c rest (ge_scanSkipSpace v))) rest F) as C.
        destruct (compact_loop true s1' _ rest) as [s1f out]. cbn [fst] in *.
        subst s1f. now apply failed_err in F.
Qed.

Lemma eof_in_step s1 s2 :
  quiet s1 -> quiet s2 -> in_step s1 s2 ->
  is_scanError (snd (eof s1)) = false -> is_scanError (snd (eof s2)) = false.
Proof.
  intros Q1 Q2 [-> | E] H; [exact H |].
  pose proof (spaced_idem s2 Q2) as I. rewrite <- E in I.
  specialize (I Q1). unfold spaced in *.
  destruct Q1 as [_ E1]. destruct Q2 as [_ E2].
  assert (T : endTop s1 = true).
  { unfold eof in H. rewrite E1 in H.
    destruct (endTop s1) eqn:ET; [reflexivity |].
    rewrite I, ET, E1 in H. discriminate. }
  unfold eof. rewrite E2. destruct (endTop s2); [reflexivity |].
  now rewrite <- E, T.
Qed.

(** The text written by [compact] is valid JSON. *)
Theorem compact_output_Valid src out :
  compact true src = inr out -> Valid out = true.
Proof.
  unfold compact, Valid. intros H.
  pose proof (compact_loop_valid src reset reset 0 (LOut []) (LOut []) []
                quiet_reset quiet_reset (or_introl eq_refl)) as T.
  destruct (compact_loop true reset 0 src) as [s o]. cbn [fst snd] in T.
  assert (E : err s = None).
  { unfold eof in H. destruct (err s); [discriminate | reflexivity]. }
  destruct T as (s2 & C & Q2 & V); [cbn; auto | exact E |].
  assert (Q : quiet s).
  { split; [| exact E]. intros St.
    destruct V as [-> | ->]; [now destruct Q2 |].
    (* [s] is reached from a quiet state by a space *)
    destruct (scan_step_quiet_or_failed s2 x20 Q2) as [[Qs _] | F].
    - now destruct Qs.
    - apply failed_err in F. contradiction. }
  destruct (eof s) as [s' v] eqn:Es. destruct (is_scanError v) eqn:Ev;
    [discriminate |].
  injection H as <-. rewrite C.
  pose proof (eof_in_step s s2 Q Q2 V) as EV. rewrite Es in EV.
  cbn [snd] in EV. now rewrite (EV Ev).
Qed.

End CompactFacts.

(** * Properties of the base64 encoding *)

Module Base64Facts.
Import Base64.

Lemma dec_enc_nat (n : nat) :
  (n < 64)%nat -> dec (enc (N.of_nat n)) = Some (N.of_nat n).
Proof.
  intros H. do 64 (destruct n as [| n]; [reflexivity |]). lia.
Qed.

Lemma dec_enc (i : N) : (i < 64)%N -> dec (enc i) = Some i.
Proof.
  intros H. rewrite <- (N2Nat.id i). apply dec_enc_nat. lia.
Qed.

Lemma enc_not_pad_nat (n : nat) :
  (n < 64)%nat -> Byte.eqb (enc (N.of_nat n)) padChar = false.
Proof.
  intros H. do 64 (destruct n as [| n]; [reflexivity |]). lia.
Qed.

Lemma dec_padChar : dec padChar = None.
Proof. reflexivity. Qed.

Lemma byte_of_to_N (b : byte) : byte_of_N (Byte.to_N b) = b.
Proof. unfold byte_of_N. now rewrite Byte.of_to_N. Qed.

Ltac arith :=
  Z.to_euclidean_division_equations; lia.

Lemma sextets (v : N) :
  (v < 16777216)%N ->
  quantum (v / 262144 mod 64) (v / 4096 mod 64) (v / 64 mod 64) (v mod 64) = v.
Proof. unfold quantum. intros H. zify. arith. Qed.

Lemma sextet_lt (v d : N) : (v / d mod 64 < 64)%N.
Proof. apply N.mod_lt. discriminate. Qed.

Lemma val3_bytes (a b c : byte) :
  let v := val3 a b c in
  (v < 16777216)%N
  /\ (v / 65536 mod 256 = Byte.to_N a)%N
  /\ (v / 256 mod 256 = Byte.to_N b)%N
  /\ (v mod 256 = Byte.to_N c)%N.
Proof.
  unfold val3.
  pose proof (Byte.to_N_bounded a). pose proof (Byte.to_N_bounded b).
  pose proof (Byte.to_N_bounded c).
  cbv zeta. repeat split; zify; arith.
Qed.


Lemma enc_not_pad (i : N) : (i < 64)%N -> Byte.eqb (enc i) padChar = false.
Proof.
  intros H. rewrite <- (N2Nat.id i). apply enc_not_pad_nat. lia.
Qed.

Lemma mod64_lt (v : N) : (v mod 64 < 64)%N.
Proof. apply N.mod_lt. discriminate. Qed.

Lemma list_ind3 (A : Type) (P : list A -> Prop) :
  P [] -> (forall a, P [a]) -> (forall a b, P [a; b]) ->
  (forall a b c l, P l -> P (a :: b :: c :: l)) ->
  forall l, P l.
Proof.
  intros H0 H1 H2 H3.
  fix IH 1. intros [| a [| b [| c l]]]; [exact H0 | apply H1 | apply H2 |].
  apply H3. apply IH.
Qed.

Lemma bytes_of_val3 (a b c : byte) : bytes_of (val3 a b c) 3 = [a; b; c].
Proof.
  destruct (val3_bytes a b c) as (_ & Ha & Hb & Hc).
  unfold bytes_of. cbn [firstn]. rewrite Ha, Hb, Hc.
  now rewrite !byte_of_to_N.
Qed.

(** Decoding the encoding of a byte string gives the byte string back. *)
Lemma DecodeString_EncodeToString (src : list byte) :
  DecodeString (EncodeToString src) = Some src.
Proof.
  induction src as [| a | a b | a b c rest IH] using list_ind3.
  - reflexivity.
  - cbn [EncodeToString DecodeString].
    destruct (val3_bytes a x00 x00) as (Hv & Ha & _ & _).
    set (v := val3 a x00 x00) in *.
    rewrite !dec_enc by apply sextet_lt. rewrite dec_padChar.
    cbn [Byte.eqb andb]. replace (Byte.eqb padChar padChar) with true by reflexivity.
    cbn [andb]. f_equal.
    assert (E : quantum (v / 262144 mod 64) (v / 4096 mod 64) 0 0 = v).
    { rewrite <- (sextets v Hv) at 3. unfold quantum.
      assert ((v / 64 mod 64 = 0)%N /\ (v mod 64 = 0)%N) as [-> ->]; [| reflexivity].
      unfold v, val3. pose proof (Byte.to_N_bounded a). cbn [Byte.to_N].
      split; zify; arith. }
    rewrite E. unfold bytes_of. cbn [firstn]. now rewrite Ha, byte_of_to_N.
  - cbn [EncodeToString DecodeString].
    destruct (val3_bytes a b x00) as (Hv & Ha & Hb & _).
    set (v := val3 a b x00) in *.
    rewrite !dec_enc by apply sextet_lt. rewrite dec_padChar.
    replace (Byte.eqb padChar padChar) with true by reflexivity.
    f_equal.
    assert (E : quantum (v / 262144 mod 64) (v / 4096 mod 64) (v / 64 mod 64) 0 = v).
    { rewrite <- (sextets v Hv) at 4. unfold quantum.
      assert ((v mod 64 = 0)%N) as ->; [| reflexivity].
      unfold v, val3. pose proof (Byte.to_N_bounded a).
      pose proof (Byte.to_N_bounded b). cbn [Byte.to_N].
      zify; arith. }
    rewrite E. unfold bytes_of. cbn [firstn]. now rewrite Ha, Hb, !byte_of_to_N.
  - cbn [EncodeToString DecodeString].
    destruct (val3_bytes a b c) as (Hv & _).
    rewrite !dec_enc by (apply sextet_lt || apply mod64_lt).
    rewrite (sextets _ Hv), bytes_of_val3, IH. reflexivity.
Qed.

End Base64Facts.

(** * The encoding of a map does not depend on the order of iteration *)

Module EncodeFacts.
Import Encode.

Lemma ascii_compare_Eq a b : Ascii.compare a b = Eq -> a = b.
Proof. apply Ascii.compare_eq_iff. Qed.

Lemma ascii_compare_refl a : Ascii.compare a a = Eq.
Proof. unfold Ascii.compare. apply N.compare_refl. Qed.

Lemma ascii_compare_Lt_trans a b c :
  Ascii.compare a b = Lt -> Ascii.compare b c <> Gt -> Ascii.compare a c = Lt.
Proof.
  unfold Ascii.compare. rewrite !N.compare_lt_iff, N.compare_gt_iff. lia.
Qed.

Lemma string_compare_trans : forall s1 s2 s3,
  String.compare s1 s2 <> Gt -> String.compare s2 s3 <> Gt ->
  String.compare s1 s3 <> Gt.
Proof.
  induction s1 as [| a s1 IH]; intros [| b s2] [| c s3]; cbn;
    try congruence.
  destruct (Ascii.compare a b) eqn:Eab; try congruence;
    destruct (Ascii.compare b c) eqn:Ebc; try congruence; intros H1 H2.
  - apply ascii_compare_Eq in Eab, Ebc. subst. rewrite ascii_compare_refl.
    now apply (IH s2).
  - apply ascii_compare_Eq in Eab. subst. now rewrite Ebc.
  - apply ascii_compare_Eq in Ebc. subst. now rewrite Eab.
  - rewrite (ascii_compare_Lt_trans a b c Eab); congruence.
Qed.

Lemma leb_trans s1 s2 s3 :
  String.leb s1 s2 = true -> String.leb s2 s3 = true -> String.leb s1 s3 = true.
Proof.
  unfold String.leb. intros H1 H2.
  pose proof (string_compare_trans s1 s2 s3) as T.
  destruct (String.compare s1 s2); destruct (String.compare s2 s3);
    destruct (String.compare s1 s3); try discriminate; try reflexivity;
    exfalso; apply T; congruence.
Qed.

Lemma insert_by_key_comm a b l :
  fst a <> fst b ->
  insert_by_key a (insert_by_key b l) = insert_by_key b (insert_by_key a l).
Proof.
  intros Hab. induction l as [| x l IH]; cbn [insert_by_key].
  - destruct (String.leb (fst a) (fst b)) eqn:Lab;
      destruct (String.leb (fst b) (fst a)) eqn:Lba; try reflexivity.
    + exfalso. apply Hab. now apply String.leb_antisym.
    + destruct (String.leb_total (fst a) (fst b)); congruence.
  - destruct (String.leb (fst b) (fst x)) eqn:Lbx;
      destruct (String.leb (fst a) (fst x)) eqn:Lax; cbn [insert_by_key];
      rewrite ?Lbx, ?Lax.
    + destruct (String.leb (fst a) (fst b)) eqn:Lab;
        destruct (String.leb (fst b) (fst a)) eqn:Lba; try reflexivity.
      * exfalso. apply Hab. now apply String.leb_antisym.
      * destruct (String.leb_total (fst a) (fst b)); congruence.
    + destruct (String.leb (fst a) (fst b)) eqn:Lab; [| reflexivity].
      rewrite (leb_trans _ _ _ Lab Lbx) in Lax. discriminate.
    + destruct (String.leb (fst b) (fst a)) eqn:Lba; [| reflexivity].
      rewrite (leb_trans _ _ _ Lba Lax) in Lbx. discriminate.
    + now rewrite IH.
Qed.

(** Sorting by key gives the same list for every order in which the
    entries of a map are listed. *)
Lemma sort_by_key_Permutation l l' :
  Permutation l l' -> NoDup (map fst l) -> sort_by_key l = sort_by_key l'.
Proof.
  unfold sort_by_key. induction 1 as [| x l l' P IH | x y l | l l' l'' P1 IH1 P2 IH2];
    intros ND; cbn [fold_right map] in *.
  - reflexivity.
  - inversion ND; subst. now rewrite IH.
  - apply insert_by_key_comm. inversion ND as [| ? ? Hin _]; subst.
    intros E. apply Hin. left. now symmetry.
  - rewrite IH1 by assumption. apply IH2.
    eapply Permutation_NoDup; [| exact ND]. now apply Permutation_map.
Qed.

Lemma encode_map_Permutation l l' :
  Permutation l l' -> NoDup (map fst l) -> encode_map l = encode_map l'.
Proof.
  intros P ND. unfold encode_map. now rewrite (sort_by_key_Permutation l l' P ND).
Qed.

End EncodeFacts.

(** * Properties of the Emitter listener *)

Module EmitterFacts.
Import Emitter.

Section Run.

Variable TLSConfig : Type.
Variable tls_Config : Type.
Variable Pipeline : Type.
Variable dispatch : list byte -> Pipeline -> option error * Pipeline.

Local Abbreviation EventListener := (EventListener TLSConfig).
Local Abbreviation World := (World TLSConfig tls_Config).
Local Abbreviation effect := (effect tls_Config).
Local Abbreviation onMessage :=
  (@Emitter.onMessage TLSConfig tls_Config Pipeline dispatch).
Local Abbreviation deliver :=
  (@Emitter.deliver TLSConfig tls_Config Pipeline dispatch).
Local Abbreviation StartListening :=
  (@Emitter.StartListening TLSConfig tls_Config Pipeline dispatch).
Local Abbreviation retry := (@Emitter.retry tls_Config).

Implicit Types (el : EventListener) (w : World) (p : Pipeline)
         (m : Message) (t : N) (tr : list effect).

Lemma calls_app f tr tr' : calls f (tr ++ tr') = calls f tr + calls f tr'.
Proof. unfold calls. now rewrite filter_app, length_app. Qed.

(** The four shapes of the effects of one callback. *)
Lemma onMessage_cases el m t p :
  let es := EmitterEventSource_ el in
  let dur : effect := EventProcessingDuration (EventSourceName el) (EventName el) t in
  let failed : effect := EventProcessingFailed (EventSourceName el) (EventName el) in
  (exists e,
      Marshal (normalize es m) = inl e
      /\ onMessage el m t p
         = ([LogError "failed to marshal the event data" e; failed; dur], p))
  \/ (exists eventBytes e p',
         Marshal (normalize es m) = inr eventBytes
         /\ dispatch eventBytes p = (Some e, p')
         /\ onMessage el m t p
            = ([LogInfo "dispatching event on data channel...";
                Dispatch eventBytes (Some e);
                LogError "failed to dispatch event" e; failed; dur], p'))
  \/ (exists eventBytes p',
         Marshal (normalize es m) = inr eventBytes
         /\ dispatch eventBytes p = (None, p')
         /\ onMessage el m t p
            = ([LogInfo "dispatching event on data channel...";
                Dispatch eventBytes None; dur], p')).
Proof.
  intros es dur failed. unfold onMessage. fold es.
  destruct (Marshal (normalize es m)) as [e | eventBytes].
  - left. now exists e.
  - right. destruct (dispatch eventBytes p) as [[e |] p'] eqn:D.
    + left. now exists eventBytes, e, p'.
    + right. now exists eventBytes, p'.
Qed.

Lemma deliver_app el ms ms' p :
  deliver el (ms ++ ms') p
  = let '(tr, p1) := deliver el ms p in
    let '(tr', p2) := deliver el ms' p1 in
    (tr ++ tr', p2).
Proof.
  revert p. induction ms as [| [m t] ms IH]; intros p; simpl.
  - now destruct (deliver el ms' p).
  - destruct (onMessage el m t p) as [trm p1].
    rewrite IH.
    destruct (deliver el ms p1) as [tr p2].
    destruct (deliver el ms' p2) as [tr' p3].
    now rewrite app_assoc.
Qed.

Lemma retry_no_dispatch steps conn k last :
  calls is_Dispatch (snd (retry steps conn k last)) = 0.
Proof.
  revert k last. induction steps as [| n IH]; intros k last; simpl; auto.
  destruct (conn k) as [e |]; simpl; auto.
  specialize (IH (Datatypes.S k) e).
  destruct (retry n conn (Datatypes.S k) e) as [r tr]. simpl in *. exact IH.
Qed.

Lemma retry_exhausted steps conn k last :
  (forall i, i < steps -> conn (k + i) <> None) ->
  exists cause,
    fst (retry steps conn k last)
    = Some (errors_Wrap cause "failed after retries").
Proof.
  revert k last. induction steps as [| n IH]; intros k last H; simpl.
  - now exists last.
  - destruct (conn k) as [e |] eqn:C.
    + destruct (IH (Datatypes.S k) e) as [cause Hc].
      { intros i Hi. replace (Datatypes.S k + i) with (k + Datatypes.S i) by lia.
        apply H. lia. }
      exists cause. destruct (retry n conn (Datatypes.S k) e). exact Hc.
    + exfalso. apply (H 0); [lia |]. now rewrite Nat.add_0_r.
Qed.

Lemma resolution_fails_options w (es : EmitterEventSource TLSConfig) :
  resolution_fails w es -> exists e, client_options w es = inl e.
Proof.
  unfold client_options.
  intros [(t & e & Ht & He) | [(u & e & Hu & He) | (pw & e & Hp & He)]].
  - rewrite Ht, He. eauto.
  - rewrite Hu, He.
    destruct (TLS es) as [t |]; [destruct (GetTLSConfig w t) |]; eauto.
  - rewrite Hp, He.
    destruct (TLS es) as [t |]; [destruct (GetTLSConfig w t) |]; eauto;
      (destruct (Username es) as [u |];
       [destruct (GetSecretFromVolume w u) |]; eauto).
Qed.


Lemma StartListening_subscribed el w p :
  subscribed el w = true ->
  exists pre post,
    StartListening el w p
    = (None, pre ++ fst (deliver el (inbound w) p) ++ post,
       snd (deliver el (inbound w) p)).
Proof.
  unfold subscribed, Emitter.StartListening.
  destruct (client_options w (EmitterEventSource_ el)) as [e | options];
    [discriminate |].
  destruct (common_Connect w _ _) as [[e |] ctr]; [discriminate |]. simpl fst.
  destruct (client_Subscribe w _ _) as [e |]; [discriminate |]. intros _.
  destruct (deliver el (inbound w) p) as [mtr p'].
  simpl fst. simpl snd. eexists. eexists. reflexivity.
Qed.

Lemma failed_iff_processing_fails el m t p :
  calls is_Failed (fst (onMessage el m t p)) = 1
  <-> processing_fails dispatch el m p = true.
Proof.
  unfold processing_fails.
  destruct (onMessage_cases el m t p)
    as [(e & M & E) | [(b & e & p' & M & D & E) | (b & p' & M & D & E)]];
    rewrite E, M; try rewrite D; cbn; split; auto; discriminate.
Qed.

(** C1, as amended: for every inbound message [dispatch] is called at most
    once and [EventProcessingFailed] at most once, and exactly one of the two
    following occurs: [dispatch] is called once and returns no error, or
    [EventProcessingFailed] is called once.  [EventProcessingFailed] is called
    when the event cannot be serialised, in which case [dispatch] is not
    called, and when the call of [dispatch] returns an error. *)
Theorem dispatch_ok_or_failed el m t p :
  let tr := fst (onMessage el m t p) in
  calls is_Dispatch tr <= 1
  /\ calls is_Failed tr <= 1
  /\ ((calls is_Dispatch_ok tr = 1 /\ calls is_Failed tr = 0)
      \/ (calls is_Dispatch_ok tr = 0 /\ calls is_Failed tr = 1))
  /\ (calls is_Failed tr = 1 <-> processing_fails dispatch el m p = true)
  /\ (calls is_Dispatch tr = 0
      <-> exists e, Marshal (normalize (EmitterEventSource_ el) m) = inl e).
Proof.
  unfold processing_fails.
  destruct (onMessage_cases el m t p)
    as [(e & M & E) | [(b & e & p' & M & D & E) | (b & p' & M & D & E)]];
    rewrite E, M; try rewrite D; cbn;
    repeat split; auto; try lia; try discriminate; eauto;
    try (intros [e' He']; discriminate); intuition discriminate.
Qed.

(** C6, as amended: [EventProcessingDuration] is recorded exactly once for
    every inbound message, as the last effect of its processing, whether the
    serialisation and the dispatch succeed or not. *)
Theorem duration_always_recorded el m t p :
  let tr := fst (onMessage el m t p) in
  calls is_Duration tr = 1
  /\ last tr CtxDone
     = EventProcessingDuration (EventSourceName el) (EventName el) t.
Proof.
  destruct (onMessage_cases el m t p)
    as [(e & M & E) | [(b & e & p' & M & D & E) | (b & p' & M & D & E)]];
    rewrite E; cbn; auto.
Qed.

(** C3: when every connection attempt allowed by the backoff fails,
    [StartListening] returns an error that wraps the failure of the
    connection with a message naming the broker address, and [dispatch] is
    never called. *)
Theorem connect_failure_is_returned el w p options :
  let es := EmitterEventSource_ el in
  let backoff := match ConnectionBackoff es with
                 | Some b => b
                 | None => DefaultBackoff w
                 end in
  client_options w es = inr options ->
  (forall k, k < Steps backoff -> client_Connect w k <> None) ->
  exists err cause,
    fst (fst (StartListening el w p)) = Some err
    /\ Cause err = Some cause
    /\ Error err
       = ("failed to connect to " ++ Broker es ++ ": " ++ Error cause)%string
    /\ calls is_Dispatch (snd (fst (StartListening el w p))) = 0.
Proof.
  intros es backoff Hopt Hfail.
  unfold Emitter.StartListening. fold es. rewrite Hopt.
  unfold common_Connect. fold backoff.
  destruct (retry_exhausted (Steps backoff) (client_Connect w) 0
              (errors_New "timed out waiting for the condition") Hfail)
    as [cause Hc].
  pose proof (retry_no_dispatch (Steps backoff) (client_Connect w) 0
                (errors_New "timed out waiting for the condition")) as Hn.
  destruct (retry (Steps backoff) (client_Connect w) 0 _) as [r ctr].
  simpl in Hc, Hn. subst r.
  exists (errors_Wrap (errors_Wrap cause "failed after retries")
            ("failed to connect to " ++ Broker es)%string),
    (errors_Wrap cause "failed after retries").
  simpl fst. simpl snd.
  split; [reflexivity |]. split; [reflexivity |]. split.
  - cbn [Error]. now rewrite string_append_assoc.
  - unfold calls in *. destruct (JSONBody es); simpl; exact Hn.
Qed.

(** C9: when the TLS configuration or a secret that the descriptor refers to
    cannot be resolved, [StartListening] returns an error, no connection
    attempt is made and [dispatch] is never called. *)
Theorem resolution_failure_aborts el w p :
  resolution_fails w (EmitterEventSource_ el) ->
  fst (fst (StartListening el w p)) <> None
  /\ calls is_Connect (snd (fst (StartListening el w p))) = 0
  /\ calls is_Dispatch (snd (fst (StartListening el w p))) = 0.
Proof.
  intros H. destruct (resolution_fails_options w _ H) as [e He].
  unfold Emitter.StartListening. rewrite He. simpl.
  repeat split; auto. discriminate.
Qed.

(** C4: a run that reaches the subscription returns nil once the context is
    cancelled, whatever [client.Unsubscribe] returns; its error is only
    logged. *)
Theorem unsubscribe_error_is_not_returned el w p r :
  subscribed el w = true ->
  fst (fst (StartListening el (with_Unsubscribe w r) p)) = None
  /\ (forall e, r = Some e ->
        In (LogError "failed to unsubscribe" e)
           (snd (fst (StartListening el (with_Unsubscribe w r) p)))).
Proof.
  unfold subscribed, Emitter.StartListening, with_Unsubscribe,
    client_options, common_Connect. cbn [GetTLSConfig GetSecretFromVolume
    DefaultBackoff client_Connect client_Subscribe inbound client_Unsubscribe].
  set (es := EmitterEventSource_ el).
  destruct (match TLS es with Some _ => _ | None => _ end) as [e | o1];
    [discriminate |].
  destruct (match Username es with Some _ => _ | None => _ end) as [e | o2];
    [discriminate |].
  destruct (match Password es with Some _ => _ | None => _ end) as [e | o3];
    [discriminate |].
  destruct (retry _ _ _ _) as [[e |] ctr]; [discriminate |]. simpl fst.
  destruct (client_Subscribe w _ _) as [e |]; [discriminate |]. intros _.
  destruct (deliver el (inbound w) p) as [mtr p'].
  split; [reflexivity |]. intros e ->. simpl.
  rewrite !in_app_iff. simpl. tauto.
Qed.

(** C5: a message whose processing fails is recorded once with
    [EventProcessingFailed]; the failure is not returned by [StartListening],
    and the messages that follow are processed by the same callback. *)
Theorem processing_failure_is_isolated el w p before m t after :
  subscribed el w = true ->
  inbound w = before ++ (m, t) :: after ->
  let p1 := snd (deliver el before p) in
  processing_fails dispatch el m p1 = true ->
  let trm := fst (onMessage el m t p1) in
  let p2 := snd (onMessage el m t p1) in
  calls is_Failed trm = 1
  /\ fst (fst (StartListening el w p)) = None
  /\ exists pre post,
      snd (fst (StartListening el w p))
      = pre ++ trm ++ fst (deliver el after p2) ++ post.
Proof.
  intros Hsub Hin p1 Hfail trm p2.
  split.
  { apply (failed_iff_processing_fails el m t p1). exact Hfail. }
  destruct (StartListening_subscribed el w p Hsub) as (pre & post & E).
  rewrite E. simpl fst. simpl snd. split; [reflexivity |].
  rewrite Hin, deliver_app. fold p1.
  destruct (deliver el before p) as [trb pb] eqn:Eb. simpl in p1. subst p1.
  simpl. subst trm p2.
  destruct (onMessage el m t pb) as [tm pm]. simpl.
  destruct (deliver el after pm) as [ta pa]. simpl.
  exists (pre ++ trb), post. now rewrite <- !app_assoc.
Qed.

(** C10: with the JSON-body flag set, a message whose payload is not valid
    JSON cannot be serialised; it is dropped: [EventProcessingFailed] is
    recorded once and [dispatch] is not called. *)
Theorem invalid_json_body_is_dropped el m t p :
  JSONBody (EmitterEventSource_ el) = true ->
  JSON.Valid (msg_Payload m) = false ->
  let tr := fst (onMessage el m t p) in
  (exists e, Marshal (normalize (EmitterEventSource_ el) m) = inl e)
  /\ calls is_Failed tr = 1
  /\ calls is_Dispatch tr = 0
  /\ snd (onMessage el m t p) = p.
Proof.
  intros HJ HV.
  apply (JSONFacts.compact_not_Valid true) in HV. destruct HV as [er Her].
  assert (M : Marshal (normalize (EmitterEventSource_ el) m)
              = inl (errors_Wrap er
                       "json: error calling MarshalJSON for type *json.RawMessage")).
  { unfold Marshal, event_fields, normalize. rewrite HJ. cbn [Body encode_Body].
    unfold Encode.marshalerEncoder. now rewrite Her. }
  unfold Emitter.onMessage. rewrite M. cbn. eauto.
Qed.

End Run.

Lemma metadata_field_Permutation l l' :
  Permutation l l' -> NoDup (map fst l) ->
  metadata_field l = metadata_field l'.
Proof.
  intros P ND. unfold metadata_field.
  rewrite (EncodeFacts.encode_map_Permutation l l' P ND).
  destruct l as [| x l].
  - apply Permutation_nil in P. now subst.
  - destruct l' as [| x' l']; [| reflexivity].
    apply Permutation_sym, Permutation_nil in P. discriminate.
Qed.

Lemma dispatched_onMessage (TLSConfig tls_Config P : Type)
      (d : list byte -> P -> option error * P)
      (el : EventListener TLSConfig) m t p :
  dispatched (fst (onMessage (tls_Config := tls_Config) d el m t p))
  = match Marshal (normalize (EmitterEventSource_ el) m) with
    | inl _ => []
    | inr eventBytes => [eventBytes]
    end.
Proof.
  unfold onMessage.
  destruct (Marshal (normalize (EmitterEventSource_ el) m)) as [e | b];
    [reflexivity |].
  destruct (d b p) as [[e |] p']; reflexivity.
Qed.

(** C8: the serialised event is a function of the message and of the
    descriptor alone: two runs on the same message and the same descriptor
    produce the same bytes, whatever the order in which the metadata map is
    iterated, the time the processing takes and the state of the pipeline. *)
Theorem serialization_is_deterministic (TLSConfig tls_Config P P' : Type)
        (d : list byte -> P -> option error * P)
        (d' : list byte -> P' -> option error * P')
        (el el' : EventListener TLSConfig) m t t' p p' :
  same_descriptor (EmitterEventSource_ el) (EmitterEventSource_ el') ->
  Marshal (normalize (EmitterEventSource_ el) m)
  = Marshal (normalize (EmitterEventSource_ el') m)
  /\ dispatched (fst (onMessage (tls_Config := tls_Config) d el m t p))
     = dispatched (fst (onMessage (tls_Config := tls_Config) d' el' m t' p')).
Proof.
  intros (_ & _ & _ & _ & _ & _ & HJ & _ & ND & Pm).
  assert (M : Marshal (normalize (EmitterEventSource_ el) m)
              = Marshal (normalize (EmitterEventSource_ el') m)).
  { unfold Marshal, event_fields, normalize. rewrite <- HJ.
    destruct (JSONBody (EmitterEventSource_ el)); cbn [Body Topic Metadata];
      now rewrite (metadata_field_Permutation _ _ Pm ND). }
  split; [exact M |]. now rewrite !dispatched_onMessage, M.
Qed.


(** ** The claims on sample runs *)

(** A message that the pipeline refuses: [dispatch] is called once and
    [EventProcessingFailed] is called once as well. *)
Lemma refused_message_is_dispatched_and_failed :
  let tr := fst (onMessage (tls_Config := unit) Sample.refuse Sample.el
                   Sample.hello 3 0) in
  calls is_Dispatch tr = 1 /\ calls is_Failed tr = 1
  /\ ~ ((calls is_Dispatch tr = 1 /\ calls is_Failed tr = 0)
        \/ (calls is_Dispatch tr = 0 /\ calls is_Failed tr = 1)).
Proof. vm_compute. repeat split. intros [[_ H] | [H _]]; discriminate. Qed.

(** A message that the pipeline refuses: [EventProcessingDuration] is
    recorded although no dispatch succeeds. *)
Lemma refused_message_has_duration :
  let tr := fst (onMessage (tls_Config := unit) Sample.refuse Sample.el
                   Sample.hello 3 0) in
  calls is_Duration tr = 1 /\ calls is_Dispatch_ok tr = 0
  /\ ~ (calls is_Duration tr = 1 <-> calls is_Dispatch_ok tr = 1).
Proof. vm_compute. repeat split. intros [H _]. now discriminate H. Qed.


Lemma connect_failure_is_returned_witness :
  client_options Sample.world_down Sample.es
  = inr [WithBrokers "x"; WithAutoReconnect true]
  /\ (forall k, k < Steps Sample.backoff ->
                client_Connect Sample.world_down k <> None)
  /\ exists err cause,
      fst (fst (StartListening Sample.accept Sample.el Sample.world_down 0))
      = Some err
      /\ Cause err = Some cause
      /\ Error err = ("failed to connect to x: " ++ Error cause)%string
      /\ calls is_Dispatch
           (snd (fst (StartListening Sample.accept Sample.el
                        Sample.world_down 0))) = 0.
Proof.
  split; [reflexivity |]. split; [intros k _; discriminate |].
  apply (connect_failure_is_returned unit unit nat Sample.accept Sample.el
           Sample.world_down 0 [WithBrokers "x"; WithAutoReconnect true]).
  - reflexivity.
  - intros k _. discriminate.
Defined.

Lemma resolution_failure_aborts_witness :
  resolution_fails Sample.world_no_secret Sample.es_secret
  /\ fst (fst (StartListening Sample.accept Sample.el_secret
                 Sample.world_no_secret 0)) <> None
  /\ calls is_Connect
       (snd (fst (StartListening Sample.accept Sample.el_secret
                    Sample.world_no_secret 0))) = 0
  /\ calls is_Dispatch
       (snd (fst (StartListening Sample.accept Sample.el_secret
                    Sample.world_no_secret 0))) = 0.
Proof.
  assert (H : resolution_fails Sample.world_no_secret Sample.es_secret).
  { right. left. eexists. eexists. split; reflexivity. }
  split; [exact H |].
  exact (resolution_failure_aborts unit unit nat Sample.accept
           Sample.el_secret Sample.world_no_secret 0 H).
Defined.

Lemma unsubscribe_error_is_not_returned_witness :
  subscribed Sample.el (Sample.world [(Sample.hello, 3%N)]) = true
  /\ fst (fst (StartListening Sample.accept Sample.el
                 (with_Unsubscribe (Sample.world [(Sample.hello, 3%N)])
                    (Some (errors_New "not connected"))) 0)) = None
  /\ In (LogError "failed to unsubscribe" (errors_New "not connected"))
        (snd (fst (StartListening Sample.accept Sample.el
                     (with_Unsubscribe (Sample.world [(Sample.hello, 3%N)])
                        (Some (errors_New "not connected"))) 0))).
Proof.
  split; [reflexivity |].
  destruct (unsubscribe_error_is_not_returned unit unit nat Sample.accept
              Sample.el (Sample.world [(Sample.hello, 3%N)]) 0
              (Some (errors_New "not connected")) eq_refl) as [H1 H2].
  split; [exact H1 | exact (H2 _ eq_refl)].
Defined.

Lemma processing_failure_is_isolated_witness :
  let w := Sample.world [(Sample.hello, 1%N); (Sample.a1, 2%N);
                         (Sample.hello, 3%N)] in
  subscribed Sample.el_json w = true
  /\ processing_fails Sample.accept Sample.el_json Sample.hello 0 = true
  /\ calls is_Failed
       (fst (onMessage (tls_Config := unit) Sample.accept Sample.el_json
               Sample.hello 1 0)) = 1
  /\ fst (fst (StartListening Sample.accept Sample.el_json w 0)) = None
  /\ exists pre post,
      snd (fst (StartListening Sample.accept Sample.el_json w 0))
      = pre
          ++ fst (onMessage Sample.accept Sample.el_json Sample.hello 1 0)
          ++ fst (deliver Sample.accept Sample.el_json
                    [(Sample.a1, 2%N); (Sample.hello, 3%N)] 0)
          ++ post.
Proof.
  intros w. split; [reflexivity |]. split; [reflexivity |].
  exact (processing_failure_is_isolated unit unit nat Sample.accept
           Sample.el_json w 0 [] Sample.hello 1%N
           [(Sample.a1, 2%N); (Sample.hello, 3%N)] eq_refl eq_refl eq_refl).
Defined.

Lemma invalid_json_body_is_dropped_witness :
  JSONBody Sample.es_json = true
  /\ JSON.Valid (msg_Payload Sample.hello) = false
  /\ (exists e, Marshal (normalize Sample.es_json Sample.hello) = inl e)
  /\ calls is_Failed
       (fst (onMessage (tls_Config := unit) Sample.accept Sample.el_json
               Sample.hello 1 0)) = 1
  /\ calls is_Dispatch
       (fst (onMessage (tls_Config := unit) Sample.accept Sample.el_json
               Sample.hello 1 0)) = 0
  /\ snd (onMessage (tls_Config := unit) Sample.accept Sample.el_json
            Sample.hello 1 0) = 0.
Proof.
  split; [reflexivity |]. split; [reflexivity |].
  exact (invalid_json_body_is_dropped unit unit nat Sample.accept
           Sample.el_json Sample.hello 1%N 0 eq_refl eq_refl).
Defined.

Lemma serialization_is_deterministic_witness :
  same_descriptor Sample.es_ab Sample.es_ba
  /\ Marshal (normalize Sample.es_ab Sample.hello)
     = Marshal (normalize Sample.es_ba Sample.hello)
  /\ dispatched (fst (onMessage (tls_Config := unit) Sample.accept
                        Sample.el_ab Sample.hello 1 0))
     = dispatched (fst (onMessage (tls_Config := unit) Sample.refuse
                          Sample.el_ba Sample.hello 7 5)).
Proof.
  assert (H : same_descriptor Sample.es_ab Sample.es_ba).
  { repeat split; try reflexivity.
    - repeat constructor; cbn; intuition discriminate.
    - apply perm_swap. }
  split; [exact H |].
  exact (serialization_is_deterministic unit unit nat nat Sample.accept
           Sample.refuse Sample.el_ab Sample.el_ba Sample.hello 1%N 7%N 0 5 H).
Defined.

End EmitterFacts.

(** * Properties of the file gateway configuration *)

Module FileFacts.
Import File.

Lemma decode_members_error members : forall w saved,
  snd (decode_members members w saved) = None
  <-> saved = None /\ existsb ill_typed members = false.
Proof.
  induction members as [| [key v] members IH]; intros w saved;
    cbn [decode_members existsb].
  - cbn. tauto.
  - unfold ill_typed at 1. cbn [fst snd].
    destruct (find_field key) as [f |]; [| apply IH].
    destruct v; cbn [orb]; rewrite ?IH; try tauto;
      destruct saved; split; intros [H1 H2]; try discriminate.
Qed.

Lemma get_set_other f g s w : f <> g -> get_field f (set_field g s w) = get_field f w.
Proof. destruct f, g; intros H; try reflexivity; contradiction. Qed.

Lemma decode_members_absent f members : forall w saved,
  Forall (fun kv => find_field (fst kv) <> Some f) members ->
  get_field f (fst (decode_members members w saved)) = get_field f w.
Proof.
  induction members as [| [key v] members IH]; intros w saved H;
    cbn [decode_members]; [reflexivity |].
  inversion H as [| ? ? Hk Hr]; subst. cbn [fst] in Hk.
  destruct (find_field key) as [g |]; [| now apply IH].
  destruct v; rewrite IH by assumption; try reflexivity.
  apply get_set_other. congruence.
Qed.

(** When [parseEventSource] returns an error. *)
Lemma parseEventSource_error y eventSource :
  snd (parseEventSource y eventSource) <> None
  <-> unmarshal_fails (y eventSource) = true.
Proof.
  unfold parseEventSource, yaml_Unmarshal, unmarshal_fails, json_Unmarshal.
  destruct (y eventSource) as [e | []]; cbn; try (split; congruence).
  pose proof (decode_members_error members zero None) as D.
  destruct (decode_members members zero None) as [w [e |]]; cbn in *.
  - split; [intros _ | discriminate].
    destruct (existsb ill_typed members); [reflexivity |].
    destruct D as [_ D]. now discriminate D.
  - split; [congruence |]. intros E. destruct D as [D _].
    destruct (D eq_refl) as [_ D']. congruence.
Qed.




End FileFacts.

(** * Further properties of the Emitter listener *)

Module RunFacts.
Import Emitter Run.

Section Run.

Variable TLSConfig : Type.
Variable tls_Config : Type.
Variable Pipeline : Type.
Variable dispatch : list byte -> Pipeline -> option error * Pipeline.

Local Abbreviation EventListener := (EventListener TLSConfig).
Local Abbreviation World := (World TLSConfig tls_Config).
Local Abbreviation effect := (effect tls_Config).
Local Abbreviation onMessage :=
  (@Emitter.onMessage TLSConfig tls_Config Pipeline dispatch).
Local Abbreviation deliver :=
  (@Emitter.deliver TLSConfig tls_Config Pipeline dispatch).
Local Abbreviation StartListening :=
  (@Emitter.StartListening TLSConfig tls_Config Pipeline dispatch).
Local Abbreviation retry := (@Emitter.retry tls_Config).

Implicit Types (el : EventListener) (w : World) (p : Pipeline)
         (m : Message) (t : N) (tr : list effect).

Lemma calls_cons f (e : effect) tr :
  calls f (e :: tr) = (if f e then 1 else 0) + calls f tr.
Proof. unfold calls. cbn [filter]. now destruct (f e). Qed.

Lemma retry_only_connect steps conn : forall k last,
  Forall (fun e => is_Connect e = true) (snd (retry steps conn k last)).
Proof.
  induction steps as [| n IH]; intros k last; cbn [Emitter.retry].
  - constructor.
  - destruct (conn k) as [e |]; [| repeat constructor].
    specialize (IH (Datatypes.S k) e).
    destruct (retry n conn (Datatypes.S k) e) as [r tr]. now constructor.
Qed.

Lemma calls_none f g tr :
  Forall (fun e => g e = true) tr ->
  (forall e : effect, g e = true -> f e = false) ->
  calls f tr = 0.
Proof.
  intros H D. induction H as [| e tr He _ IH]; [reflexivity |].
  now rewrite calls_cons, (D e He), IH.
Qed.

Lemma connect_calls f w b :
  (forall e : effect, is_Connect e = true -> f e = false) ->
  calls f (snd (common_Connect w b (client_Connect w))) = 0.
Proof.
  intros D. unfold common_Connect.
  apply (calls_none f is_Connect); [apply retry_only_connect | exact D].
Qed.

Lemma StartListening_failed el w p :
  fst (fst (StartListening el w p)) <> None ->
  Forall (fun e => is_startup e = true) (snd (fst (StartListening el w p)))
  /\ snd (StartListening el w p) = p.
Proof.
  unfold Emitter.StartListening.
  destruct (client_options w (EmitterEventSource_ el)) as [e | options].
  { intros _. cbn. split; [repeat constructor | reflexivity]. }
  pose proof (retry_only_connect
                (Steps match ConnectionBackoff (EmitterEventSource_ el) with
                       | Some b => b
                       | None => DefaultBackoff w
                       end)
                (client_Connect w) 0
                (errors_New "timed out waiting for the condition")) as RC.
  unfold common_Connect.
  destruct (retry _ _ _ _) as [[e |] ctr]; cbn [fst snd] in *.
  { intros _. split; [| reflexivity].
    rewrite !Forall_app. repeat split; try (repeat constructor).
    - destruct (JSONBody (EmitterEventSource_ el)); repeat constructor.
    - eapply Forall_impl; [| exact RC]. now intros [].  }
  destruct (client_Subscribe w _ _) as [e |]; cbn [fst snd].
  { intros _. split; [| reflexivity].
    rewrite !Forall_app. repeat split; try (repeat constructor).
    - destruct (JSONBody (EmitterEventSource_ el)); repeat constructor.
    - eapply Forall_impl; [| exact RC]. now intros []. }
  destruct (deliver el (inbound w) p) as [mtr p']. cbn. congruence.
Qed.

(** X1: [StartListening] returns nil exactly when the options are resolved,
    the connection is made and the channel is subscribed. *)
Theorem nil_iff_subscribed el w p :
  fst (fst (StartListening el w p)) = None <-> subscribed el w = true.
Proof.
  unfold Emitter.StartListening, subscribed.
  destruct (client_options w (EmitterEventSource_ el)) as [e | options];
    [cbn; split; discriminate |].
  destruct (common_Connect w _ _) as [[e |] ctr]; cbn [fst snd];
    [split; discriminate |].
  destruct (client_Subscribe w _ _) as [e |]; cbn [fst snd];
    [split; discriminate |].
  destruct (deliver el (inbound w) p) as [mtr p']. cbn. tauto.
Qed.

(** X2: a run that returns an error has not touched the pipeline: [dispatch]
    is not called and its state is the initial one, no metric is recorded and
    [client.Unsubscribe] is not called. *)
Theorem failed_start_touches_nothing el w p :
  fst (fst (StartListening el w p)) <> None ->
  let tr := snd (fst (StartListening el w p)) in
  snd (StartListening el w p) = p
  /\ calls is_Dispatch tr = 0
  /\ calls is_Failed tr = 0
  /\ calls is_Duration tr = 0
  /\ calls is_Unsubscribe tr = 0.
Proof.
  intros H. destruct (StartListening_failed el w p H) as [F E].
  cbv zeta. split; [exact E |].
  repeat split; apply (calls_none _ is_startup _ F); now intros [].
Qed.

(** X3: when the broker refuses the subscription, [StartListening] returns
    the error of [client.Subscribe] wrapped with the name of the channel; the
    channel is not unsubscribed and [dispatch] is not called. *)
Theorem subscribe_failure_is_returned el w p options e :
  let es := EmitterEventSource_ el in
  client_options w es = inr options ->
  fst (common_Connect w (ConnectionBackoff es) (client_Connect w)) = None ->
  client_Subscribe w (ChannelKey es) (ChannelName es) = Some e ->
  let tr := snd (fst (StartListening el w p)) in
  fst (fst (StartListening el w p))
  = Some (errors_Wrap e ("failed to subscribe to channel "
                           ++ ChannelName es)%string)
  /\ Error (errors_Wrap e ("failed to subscribe to channel "
                             ++ ChannelName es)%string)
     = ("failed to subscribe to channel " ++ ChannelName es ++ ": "
          ++ Error e)%string
  /\ In (ClientSubscribe (ChannelKey es) (ChannelName es) (Some e)) tr
  /\ calls is_Unsubscribe tr = 0
  /\ calls is_Dispatch tr = 0.
Proof.
  intros es Ho Hc Hs tr.
  assert (R : fst (fst (StartListening el w p))
              = Some (errors_Wrap e ("failed to subscribe to channel "
                                       ++ ChannelName es)%string)).
  { unfold Emitter.StartListening. fold es. rewrite Ho.
    destruct (common_Connect w _ _) as [r ctr]. cbn [fst] in Hc. subst r.
    now rewrite Hs. }
  split; [exact R |]. split; [cbn [Error]; now rewrite string_append_assoc |].
  assert (F : fst (fst (StartListening el w p)) <> None) by (rewrite R; discriminate).
  destruct (StartListening_failed el w p F) as [FA _]. fold tr in FA.
  split.
  - subst tr. unfold Emitter.StartListening. fold es. rewrite Ho.
    destruct (common_Connect w _ _) as [r ctr]. cbn [fst] in Hc. subst r.
    rewrite Hs. cbn [fst snd]. rewrite !in_app_iff. cbn. tauto.
  - split; apply (calls_none _ is_startup _ FA); now intros [].
Qed.

(** X4: a failure of the TLS configuration is reported before anything
    else is done, whatever the secrets are: the run has logged its start
    only, and the error is the one of [GetTLSConfig], wrapped. *)
Theorem tls_error_comes_first el w p (tls : TLSConfig) e :
  TLS (EmitterEventSource_ el) = Some tls ->
  GetTLSConfig w tls = inl e ->
  StartListening el w p
  = (Some (errors_Wrap e "failed to get the tls configuration"),
     [LogInfo "started processing the Emitter event source..."], p).
Proof.
  intros Ht He. unfold Emitter.StartListening, client_options.
  now rewrite Ht, He.
Qed.

(** X5: once the TLS configuration is resolved, a user name that cannot be
    read is reported with the name of its secret, whatever the password is;
    a password that cannot be read is reported with the name of its secret
    when the user name is read. *)
Theorem secret_errors_name_the_secret el w p :
  let es := EmitterEventSource_ el in
  tls_resolves w es ->
  (forall u e,
      Username es = Some u -> GetSecretFromVolume w u = inl e ->
      fst (fst (StartListening el w p))
      = Some (errors_Wrap e ("failed to retrieve the username from "
                               ++ Name u)%string))
  /\ (forall pw e,
         secret_resolves w (Username es) ->
         Password es = Some pw -> GetSecretFromVolume w pw = inl e ->
         fst (fst (StartListening el w p))
         = Some (errors_Wrap e ("failed to retrieve the password from "
                                  ++ Name pw)%string)).
Proof.
  intros es T. unfold tls_resolves in T.
  unfold Emitter.StartListening, client_options. fold es. split.
  - intros u e Hu He. rewrite Hu, He.
    destruct (TLS es) as [t |]; [destruct T as [c ->] |]; reflexivity.
  - intros pw e U Hp He. unfold secret_resolves in U. rewrite Hp, He.
    destruct (TLS es) as [t |]; [destruct T as [c ->] |];
      (destruct (Username es) as [u |]; [destruct U as [v ->] |]);
      reflexivity.
Qed.

(** The effects of a run that reaches the subscription. *)
Lemma StartListening_shape el w p :
  subscribed el w = true ->
  let es := EmitterEventSource_ el in
  let uerr := client_Unsubscribe w (ChannelKey es) (ChannelName es) in
  exists pre,
    StartListening el w p
    = (None,
       (pre ++ [ClientSubscribe (ChannelKey es) (ChannelName es) None])
         ++ fst (deliver el (inbound w) p)
         ++ [CtxDone;
             LogInfo "event source stopped, unsubscribe the channel";
             ClientUnsubscribe (ChannelKey es) (ChannelName es) uerr]
         ++ match uerr with
            | Some err => [LogError "failed to unsubscribe" err]
            | None => []
            end,
       snd (deliver el (inbound w) p))
    /\ Forall (fun e => is_startup e && negb (is_Subscribe e) = true) pre.
Proof.
  intros H es uerr. unfold subscribed in H. unfold Emitter.StartListening.
  fold es in H |- *. fold uerr.
  destruct (client_options w es) as [e | options]; [discriminate |].
  pose proof (retry_only_connect
                (Steps match ConnectionBackoff es with
                       | Some b => b
                       | None => DefaultBackoff w
                       end)
                (client_Connect w) 0
                (errors_New "timed out waiting for the condition")) as RC.
  unfold common_Connect in *.
  destruct (retry _ _ _ _) as [[e |] ctr]; [discriminate |].
  cbn [fst snd] in *.
  destruct (client_Subscribe w _ _) as [e |]; [discriminate |].
  destruct (deliver el (inbound w) p) as [mtr p']. cbn [fst snd].
  exists (([LogInfo "started processing the Emitter event source..."]
             ++ (if JSONBody es
                 then [LogInfo "assuming all events have a json body..."]
                 else [])
             ++ [LogInfo "creating a client"; NewClient options]) ++ ctr).
  split.
  - f_equal. f_equal. f_equal. apply app_assoc.
  - apply Forall_app. split.
    + destruct (JSONBody es); repeat constructor.
    + eapply Forall_impl; [| exact RC]. now intros [].
Qed.

Lemma onMessage_calls el m t p :
  let tr := fst (onMessage el m t p) in
  calls is_Duration tr = 1
  /\ calls is_Dispatch_ok tr + calls is_Failed tr = 1
  /\ calls is_Dispatch tr
     = (if serialisable (EmitterEventSource_ el) (m, t) then 1 else 0)
  /\ calls is_Subscribe tr = 0
  /\ calls is_Unsubscribe tr = 0.
Proof.
  unfold serialisable. cbn [fst].
  destruct (EmitterFacts.onMessage_cases TLSConfig tls_Config Pipeline
              dispatch el m t p)
    as [(e & M & E) | [(b & e & p' & M & D & E) | (b & p' & M & D & E)]];
    rewrite E, M; cbn; auto.
Qed.

Lemma deliver_calls el msgs : forall p,
  let tr := fst (deliver el msgs p) in
  calls is_Duration tr = List.length msgs
  /\ calls is_Dispatch_ok tr + calls is_Failed tr = List.length msgs
  /\ calls is_Dispatch tr
     = List.length (filter (serialisable (EmitterEventSource_ el)) msgs)
  /\ calls is_Subscribe tr = 0
  /\ calls is_Unsubscribe tr = 0.
Proof.
  induction msgs as [| [m t] msgs IH]; intros p; [cbn; auto |].
  cbn [Emitter.deliver filter].
  destruct (onMessage_calls el m t p) as (A1 & A2 & A3 & A4 & A5).
  destruct (onMessage el m t p) as [trm p1]. cbn [fst] in *.
  destruct (IH p1) as (B1 & B2 & B3 & B4 & B5).
  destruct (deliver el msgs p1) as [tr' p2]. cbn [fst] in *.
  cbv zeta. rewrite !EmitterFacts.calls_app, A1, A3, A4, A5, B1, B3, B4, B5.
  repeat split; cbn [List.length]; try lia.
  destruct (serialisable (EmitterEventSource_ el) (m, t)); reflexivity.
Qed.

Lemma startup_calls f (pre : list effect) :
  Forall (fun e => is_startup e && negb (is_Subscribe e) = true) pre ->
  (forall e : effect,
      is_startup e && negb (is_Subscribe e) = true -> f e = false) ->
  calls f pre = 0.
Proof.
  intros H D.
  apply (calls_none f (fun e => is_startup e && negb (is_Subscribe e)) pre H D).
Qed.

(** X6: in a run that reaches the subscription every inbound message is
    accounted for: [EventProcessingDuration] is recorded once for each, each
    is either dispatched with success or counted with
    [EventProcessingFailed], and [dispatch] is called once for each message
    whose event can be serialised and for no other. *)
Theorem every_message_is_accounted_for el w p :
  subscribed el w = true ->
  let tr := snd (fst (StartListening el w p)) in
  calls is_Duration tr = List.length (inbound w)
  /\ calls is_Dispatch_ok tr + calls is_Failed tr = List.length (inbound w)
  /\ calls is_Dispatch tr
     = List.length
         (filter (serialisable (EmitterEventSource_ el)) (inbound w)).
Proof.
  intros H. destruct (StartListening_shape el w p H) as (pre & E & F).
  rewrite E. cbn [fst snd]. clear E.
  destruct (deliver_calls el (inbound w) p) as (B1 & B2 & B3 & _).
  assert (Z : forall f : effect -> bool,
             (forall e, is_startup e && negb (is_Subscribe e) = true
                        -> f e = false) ->
             calls f pre = 0) by (intros f; now apply startup_calls).
  rewrite !EmitterFacts.calls_app, B1, B3.
  rewrite (Z is_Duration), (Z is_Dispatch), (Z is_Dispatch_ok), (Z is_Failed)
    by (now intros []).
  destruct (client_Unsubscribe w _ _); cbn; repeat split; lia.
Qed.

(** X7: a run that reaches the subscription subscribes once and
    unsubscribes once, with the key and the channel of the descriptor. *)
Theorem subscribes_and_unsubscribes_once el w p :
  subscribed el w = true ->
  let es := EmitterEventSource_ el in
  let tr := snd (fst (StartListening el w p)) in
  calls is_Subscribe tr = 1
  /\ calls is_Unsubscribe tr = 1
  /\ In (ClientSubscribe (ChannelKey es) (ChannelName es) None) tr
  /\ In (ClientUnsubscribe (ChannelKey es) (ChannelName es)
           (client_Unsubscribe w (ChannelKey es) (ChannelName es))) tr.
Proof.
  intros H es tr. subst tr.
  destruct (StartListening_shape el w p H) as (pre & E & F).
  fold es in E.
  rewrite E. cbn [fst snd]. clear E.
  destruct (deliver_calls el (inbound w) p) as (_ & _ & _ & B4 & B5).
  assert (Z : forall f : effect -> bool,
             (forall e, is_startup e && negb (is_Subscribe e) = true
                        -> f e = false) ->
             calls f pre = 0) by (intros f; now apply startup_calls).
  rewrite !EmitterFacts.calls_app, B4, B5.
  rewrite (Z is_Subscribe), (Z is_Unsubscribe) by (now intros []).
  rewrite !in_app_iff.
  destruct (client_Unsubscribe w (ChannelKey es) (ChannelName es));
    cbn; repeat split; auto 10.
Qed.

Lemma serialisable_flag_off (es : EmitterEventSource TLSConfig) mt :
  JSONBody es = false -> serialisable es mt = true.
Proof.
  intros H. unfold serialisable, Marshal, event_fields, normalize.
  now rewrite H.
Qed.

(** X8: with the JSON-body flag off every inbound message of a run that
    reaches the subscription is handed to [dispatch], whatever its
    payload. *)
Theorem flag_off_dispatches_every_message el w p :
  JSONBody (EmitterEventSource_ el) = false ->
  subscribed el w = true ->
  calls is_Dispatch (snd (fst (StartListening el w p)))
  = List.length (inbound w).
Proof.
  intros HJ H. destruct (StartListening_shape el w p H) as (pre & E & F).
  rewrite E. cbn [fst snd]. clear E.
  destruct (deliver_calls el (inbound w) p) as (_ & _ & B3 & _).
  rewrite !EmitterFacts.calls_app, B3.
  rewrite (startup_calls is_Dispatch pre F) by (now intros []).
  replace (filter (serialisable (EmitterEventSource_ el)) (inbound w))
    with (inbound w).
  - destruct (client_Unsubscribe w _ _); cbn; lia.
  - symmetry. apply forallb_filter_id. apply forallb_forall.
    intros mt _. now apply serialisable_flag_off.
Qed.

Lemma dispatched_app (tr tr' : list effect) :
  dispatched (tr ++ tr') = dispatched tr ++ dispatched tr'.
Proof.
  induction tr as [| e tr IH]; [reflexivity |].
  destruct e; cbn; rewrite ?IH; reflexivity.
Qed.

Lemma deliver_cons el m t msgs p :
  deliver el ((m, t) :: msgs) p
  = (fst (onMessage el m t p)
       ++ fst (deliver el msgs (snd (onMessage el m t p))),
     snd (deliver el msgs (snd (onMessage el m t p)))).
Proof.
  cbn [Emitter.deliver]. destruct (onMessage el m t p) as [tr p1].
  cbn [fst snd]. now destruct (deliver el msgs p1).
Qed.

Lemma onMessage_not_serialisable el m t p :
  serialisable (EmitterEventSource_ el) (m, t) = false ->
  dispatched (fst (onMessage el m t p)) = [] /\ snd (onMessage el m t p) = p.
Proof.
  unfold serialisable, Emitter.onMessage. cbn [fst].
  destruct (Marshal (normalize (EmitterEventSource_ el) m));
    [auto | discriminate].
Qed.

(** X9: the messages whose event cannot be serialised are invisible to the
    pipeline: it receives the same events, and is left in the same state,
    as if they had not been delivered. *)
Theorem dropped_messages_are_invisible el msgs : forall p,
  let kept := filter (serialisable (EmitterEventSource_ el)) msgs in
  dispatched (fst (deliver el msgs p)) = dispatched (fst (deliver el kept p))
  /\ snd (deliver el msgs p) = snd (deliver el kept p).
Proof.
  induction msgs as [| [m t] msgs IH]; intros p; [cbn; auto |].
  cbn [filter]. rewrite deliver_cons. cbn [fst snd].
  destruct (serialisable (EmitterEventSource_ el) (m, t)) eqn:S.
  - rewrite deliver_cons. cbn [fst snd]. rewrite !dispatched_app.
    destruct (IH (snd (onMessage el m t p))) as [I1 I2].
    now rewrite I1, I2.
  - destruct (onMessage_not_serialisable el m t p S) as [D P].
    rewrite dispatched_app, D, P. apply IH.
Qed.

End Run.

(** X10: the event of a message cannot be serialised exactly when the
    JSON-body flag is set and the payload is not valid JSON. *)
Theorem marshal_fails_iff (TLSConfig : Type)
        (es : EmitterEventSource TLSConfig) m :
  (exists e, Marshal (normalize es m) = inl e)
  <-> JSONBody es = true /\ JSON.Valid (msg_Payload m) = false.
Proof.
  unfold Marshal, event_fields, normalize.
  destruct (JSONBody es); cbn [Body encode_Body].
  - unfold Encode.marshalerEncoder.
    rewrite (JSONFacts.compact_not_Valid true).
    destruct (JSON.compact true (msg_Payload m)) as [e | out]; split.
    + intros _. eauto.
    + intros _. eauto.
    + intros [e H]. discriminate.
    + intros [_ [e H]]. discriminate.
  - split; [intros [e H]; discriminate | intros [H _]; discriminate].
Qed.

(** ** The properties on sample runs *)

Lemma failed_start_touches_nothing_witness :
  let r := StartListening Sample.accept Sample.el world_no_channel 0 in
  fst (fst r) <> None
  /\ snd r = 0
  /\ calls is_Dispatch (snd (fst r)) = 0
  /\ calls is_Failed (snd (fst r)) = 0
  /\ calls is_Duration (snd (fst r)) = 0
  /\ calls is_Unsubscribe (snd (fst r)) = 0.
Proof.
  intros r.
  assert (H : fst (fst r) <> None) by discriminate.
  split; [exact H |].
  exact (failed_start_touches_nothing unit unit nat Sample.accept Sample.el
           world_no_channel 0 H).
Defined.

Lemma subscribe_failure_is_returned_witness :
  let r := StartListening Sample.accept Sample.el world_no_channel 0 in
  client_options world_no_channel Sample.es
  = inr [WithBrokers "x"; WithAutoReconnect true]
  /\ fst (fst r)
     = Some (errors_Wrap (errors_New "not authorized")
               "failed to subscribe to channel c")
  /\ Error (errors_Wrap (errors_New "not authorized")
              "failed to subscribe to channel c")
     = "failed to subscribe to channel c: not authorized"%string
  /\ In (ClientSubscribe "k" "c" (Some (errors_New "not authorized")))
        (snd (fst r))
  /\ calls is_Unsubscribe (snd (fst r)) = 0
  /\ calls is_Dispatch (snd (fst r)) = 0.
Proof.
  intros r. split; [reflexivity |].
  exact (subscribe_failure_is_returned unit unit nat Sample.accept Sample.el
           world_no_channel 0 [WithBrokers "x"; WithAutoReconnect true]
           (errors_New "not authorized") eq_refl eq_refl eq_refl).
Defined.

Lemma tls_error_comes_first_witness :
  TLS es_tls = Some tt
  /\ StartListening Sample.accept el_tls world_no_tls 0
     = (Some (errors_Wrap (errors_New "no certificate")
                "failed to get the tls configuration"),
        [LogInfo "started processing the Emitter event source..."], 0).
Proof.
  split; [reflexivity |].
  exact (tls_error_comes_first unit unit nat Sample.accept el_tls world_no_tls
           0 tt (errors_New "no certificate") eq_refl eq_refl).
Defined.

Lemma secret_errors_name_the_secret_witness :
  tls_resolves Sample.world_no_secret Sample.es_secret
  /\ fst (fst (StartListening Sample.accept Sample.el_secret
                 Sample.world_no_secret 0))
     = Some (errors_Wrap (errors_New "no such file")
               "failed to retrieve the username from emitter-secret").
Proof.
  assert (T : tls_resolves Sample.world_no_secret Sample.es_secret)
    by exact I.
  split; [exact T |].
  exact (proj1 (secret_errors_name_the_secret unit unit nat Sample.accept
                  Sample.el_secret Sample.world_no_secret 0 T)
           _ _ eq_refl eq_refl).
Defined.

Lemma every_message_is_accounted_for_witness :
  let tr := snd (fst (StartListening Sample.refuse Sample.el_json
                        (Sample.world three) 0)) in
  subscribed Sample.el_json (Sample.world three) = true
  /\ calls is_Duration tr = 3
  /\ calls is_Dispatch_ok tr + calls is_Failed tr = 3
  /\ calls is_Dispatch tr = 2.
Proof.
  intros tr. split; [reflexivity |].
  exact (every_message_is_accounted_for unit unit nat Sample.refuse
           Sample.el_json (Sample.world three) 0 eq_refl).
Defined.

Lemma subscribes_and_unsubscribes_once_witness :
  let tr := snd (fst (StartListening Sample.accept Sample.el
                        (Sample.world three) 0)) in
  subscribed Sample.el (Sample.world three) = true
  /\ calls is_Subscribe tr = 1
  /\ calls is_Unsubscribe tr = 1
  /\ In (ClientSubscribe "k" "c" None) tr
  /\ In (ClientUnsubscribe "k" "c" None) tr.
Proof.
  intros tr. split; [reflexivity |].
  exact (subscribes_and_unsubscribes_once unit unit nat Sample.accept
           Sample.el (Sample.world three) 0 eq_refl).
Defined.

Lemma flag_off_dispatches_every_message_witness :
  JSONBody (EmitterEventSource_ Sample.el) = false
  /\ subscribed Sample.el (Sample.world three) = true
  /\ calls is_Dispatch
       (snd (fst (StartListening Sample.accept Sample.el
                    (Sample.world three) 0))) = 3.
Proof.
  split; [reflexivity |]. split; [reflexivity |].
  exact (flag_off_dispatches_every_message unit unit nat Sample.accept
           Sample.el (Sample.world three) 0 eq_refl eq_refl).
Defined.

End RunFacts.

(** * Further properties of the file gateway configuration *)

Module ParseFacts.
Import File Parse.

Lemma asciiEqualFold_refl s : asciiEqualFold s s = true.
Proof.
  induction s as [| a s IH]; [reflexivity |].
  cbn. now rewrite Ascii.eqb_refl, IH.
Qed.

Lemma asciiEqualFold_common : forall a b k,
  asciiEqualFold a k = true -> asciiEqualFold b k = true ->
  asciiEqualFold a b = true.
Proof.
  induction a as [| x a IH]; intros [| y b] [| z k]; cbn; try congruence.
  intros H1 H2. apply andb_prop in H1 as [E1 F1].
  apply andb_prop in H2 as [E2 F2].
  apply Ascii.eqb_eq in E1, E2. rewrite E1, E2, Ascii.eqb_refl.
  now apply (IH b k).
Qed.

Lemma field_names_apart f g :
  asciiEqualFold (field_name f) (field_name g) = true -> f = g.
Proof. destruct f, g; cbn; congruence. Qed.

Lemma In_fields f : In f fields.
Proof. destruct f; cbn; tauto. Qed.

(** X11: a key selects a field exactly when it is the name of the field up
    to the case of its letters. *)
Theorem key_selects_field_up_to_case key f :
  find_field key = Some f <-> asciiEqualFold (field_name f) key = true.
Proof.
  unfold find_field. split.
  - destruct (find (fun g => String.eqb (field_name g) key) fields)
      as [g |] eqn:E.
    + intros [= <-]. apply find_some in E as [_ E].
      apply String.eqb_eq in E. subst key. apply asciiEqualFold_refl.
    + intros H. now apply find_some in H as [_ H].
  - intros H.
    destruct (find (fun g => String.eqb (field_name g) key) fields)
      as [g |] eqn:E.
    + apply find_some in E as [_ E]. apply String.eqb_eq in E. subst key.
      f_equal. symmetry. now apply field_names_apart.
    + destruct (find (fun g => asciiEqualFold (field_name g) key) fields)
        as [g |] eqn:E'.
      * apply find_some in E' as [_ E']. f_equal. apply field_names_apart.
        now apply (asciiEqualFold_common _ _ key).
      * pose proof (find_none _ _ E' f (In_fields f)) as N. cbn in N.
        congruence.
Qed.

Lemma decode_members_app a : forall b w saved,
  decode_members (a ++ b) w saved
  = decode_members b (fst (decode_members a w saved))
      (snd (decode_members a w saved)).
Proof.
  induction a as [| [key v] a IH]; intros b w saved; [reflexivity |].
  cbn [app decode_members].
  destruct (find_field key) as [f |]; [| apply IH].
  destruct v; apply IH.
Qed.

Lemma decode_members_relevant members : forall w saved,
  decode_members members w saved
  = decode_members (filter relevant members) w saved.
Proof.
  induction members as [| [key v] members IH]; intros w saved;
    [reflexivity |].
  cbn [filter]. unfold relevant at 1. cbn [fst snd decode_members].
  destruct (find_field key) as [f |] eqn:F; [| apply IH].
  destruct v; cbn [decode_members]; rewrite ?F; apply IH.
Qed.


Lemma get_set_same f s w : get_field f (set_field f s w) = s.
Proof. now destruct f. Qed.

(** Of the members that select a field, the last is the one that is
    kept. *)
Lemma last_member_is_kept y s before key v after f :
  y s = inr (Object (before ++ (key, String v) :: after)) ->
  find_field key = Some f ->
  Forall (fun kv => find_field (fst kv) <> Some f) after ->
  existsb ill_typed (before ++ (key, String v) :: after) = false ->
  exists w,
    parseEventSource y s = (ptr (Some w), None) /\ get_field f w = v.
Proof.
  intros Hy Hk Ha Hty.
  unfold parseEventSource, yaml_Unmarshal, json_Unmarshal. rewrite Hy.
  pose proof (FileFacts.decode_members_error
                (before ++ (key, String v) :: after) zero None) as D.
  destruct (decode_members (before ++ (key, String v) :: after) zero None)
    as [w e] eqn:E. cbn [fst snd] in *.
  assert (e = None) as -> by (apply D; auto).
  exists w. split; [reflexivity |].
  rewrite decode_members_app in E. cbn [decode_members] in E.
  rewrite Hk in E.
  apply (f_equal fst) in E. cbn [fst] in E. rewrite <- E.
  rewrite (FileFacts.decode_members_absent f after _ _ Ha).
  apply get_set_same.
Qed.

Lemma StronglySorted_after (A : Type) (R : A -> A -> Prop) x : forall a b,
  StronglySorted R (a ++ x :: b) -> Forall (R x) b.
Proof.
  induction a as [| z a IH]; intros b H; cbn [app] in H;
    apply StronglySorted_inv in H as [H1 H2]; [exact H2 | now apply IH].
Qed.

Lemma ltb_not_leb (a b : string) :
  String.ltb a b = true -> String.leb b a = false.
Proof.
  unfold String.ltb, String.leb. rewrite (String.compare_antisym b a).
  now destruct (String.compare a b).
Qed.

Lemma ltb_trans (a b c : string) :
  String.ltb a b = true -> String.ltb b c = true -> String.ltb a c = true.
Proof.
  unfold String.ltb. intros H1 H2.
  destruct (String.compare a b) eqn:C1; try discriminate.
  destruct (String.compare b c) eqn:C2; try discriminate.
  destruct (String.compare a c) eqn:C3; [| reflexivity |].
  - apply String.compare_eq_iff in C3. subst c.
    rewrite String.compare_antisym, C1 in C2. discriminate.
  - exfalso.
    assert (G : String.compare c a <> Gt).
    { rewrite String.compare_antisym, C3. discriminate. }
    assert (G' : String.compare a b <> Gt) by congruence.
    pose proof (EncodeFacts.string_compare_trans c a b G G') as T.
    rewrite String.compare_antisym, C2 in T. now apply T.
Qed.

(** The map that [put] fills keeps its keys in increasing order. *)
Lemma put_sorted kv : forall m,
  StronglySorted key_lt m ->
  StronglySorted key_lt (put kv m)
  /\ forall x, key_lt x kv -> Forall (key_lt x) m -> Forall (key_lt x) (put kv m).
Proof.
  induction m as [| kv' r IH]; intros S; cbn [put].
  - split; [repeat constructor | intros x H _; now repeat constructor].
  - apply StronglySorted_inv in S as [Sr Fr].
    destruct (String.compare (fst kv) (fst kv')) eqn:C.
    + apply String.compare_eq_iff in C. split.
      * constructor; [exact Sr |]. unfold key_lt in *. now rewrite C.
      * intros x H F. inversion F; subst. now constructor.
    + assert (L : key_lt kv kv') by (unfold key_lt, String.ltb; now rewrite C).
      split.
      * constructor; [now constructor |]. constructor; [exact L |].
        eapply Forall_impl; [| exact Fr]. intros a Ha.
        exact (ltb_trans _ _ _ L Ha).
      * intros x H F. now constructor.
    + destruct (IH Sr) as [S' F']. split.
      * constructor; [exact S' |]. apply F'; [| exact Fr].
        unfold key_lt, String.ltb.
        rewrite String.compare_antisym, C. reflexivity.
      * intros x H F. inversion F; subst. constructor; [assumption |].
        now apply F'.
Qed.

Lemma to_map_sorted members : StronglySorted key_lt (to_map members).
Proof.
  unfold to_map.
  assert (G : forall m, StronglySorted key_lt m ->
                        StronglySorted key_lt
                          (fold_left (fun m kv => put kv m) members m)).
  { induction members as [| kv members IH]; intros m S; [exact S |].
    cbn [fold_left]. apply IH. now apply put_sorted. }
  apply G. constructor.
Qed.

Lemma flat_yamlToJSON_sorted y members :
  flat_yamlToJSON y = inr (Object members) -> StronglySorted key_lt members.
Proof.
  unfold flat_yamlToJSON.
  destruct (read_members _) as [ms |]; [| discriminate].
  pose proof (to_map_sorted ms) as S.
  destruct (to_map ms); [discriminate |]. now intros [= <-].
Qed.

(** X13: when several keys of a block select the same field, differing in
    the case of their letters, the value that is kept is the one under the
    key that is last in byte order, wherever its line stands in the block:
    the front end hands the members over in increasing order of their keys,
    and the decoding keeps the last of those that select the field. *)
Theorem greatest_key_is_kept y s members key v f :
  y s = inr (Object members) ->
  StronglySorted key_lt members ->
  In (key, String v) members ->
  find_field key = Some f ->
  (forall kv, In kv members -> find_field (fst kv) = Some f ->
              String.leb (fst kv) key = true) ->
  existsb ill_typed members = false ->
  exists w,
    parseEventSource y s = (ptr (Some w), None) /\ get_field f w = v.
Proof.
  intros Hy Hs Hin Hk Hmax Hty.
  destruct (in_split _ _ Hin) as (before & after & E). subst members.
  apply (last_member_is_kept y s before key v after f Hy Hk); [| exact Hty].
  pose proof (StronglySorted_after _ key_lt _ _ _ Hs) as Ha.
  apply Forall_forall. intros kv Hkv Hf.
  assert (L : key_lt (key, String v) kv).
  { rewrite Forall_forall in Ha. now apply Ha. }
  apply ltb_not_leb in L. cbn [fst] in L.
  rewrite Hmax in L; [discriminate | | exact Hf].
  apply in_or_app. right. now right.
Qed.

(** X14: the result is the nil interface exactly when an error is
    returned; without an error it is a [*fileWatcher], which is itself nil
    exactly when the document is null. *)
Theorem result_is_nil_on_error_only y s :
  (fst (parseEventSource y s) = nil <-> snd (parseEventSource y s) <> None)
  /\ (fst (parseEventSource y s) = ptr None <-> y s = inr Null).
Proof.
  unfold parseEventSource, yaml_Unmarshal, json_Unmarshal.
  destruct (y s) as [e | []]; cbn;
    try (split; split; congruence).
  destruct (decode_members members zero None) as [w [e |]]; cbn;
    split; split; congruence.
Qed.


Lemma greatest_key_is_kept_witness :
  flat_yamlToJSON type_twice
  = inr (Object [("Type", String "REMOVE"); ("type", String "CREATE")])
  /\ flat_yamlToJSON type_twice_reversed = flat_yamlToJSON type_twice
  /\ exists w,
      parseEventSource flat_yamlToJSON type_twice = (ptr (Some w), None)
      /\ Type_ w = "CREATE".
Proof.
  split; [reflexivity |]. split; [reflexivity |].
  apply (greatest_key_is_kept flat_yamlToJSON type_twice
           [("Type", String "REMOVE"); ("type", String "CREATE")]
           "type" "CREATE" f_type).
  - reflexivity.
  - repeat constructor.
  - right. left. reflexivity.
  - reflexivity.
  - intros kv [<- | [<- | []]] _; reflexivity.
  - reflexivity.
Defined.

End ParseFacts.

(** * What [json.Marshal] writes is valid JSON *)

Module WireFacts.
Import JSON Encode Wire.

Lemma safe_byte_valid ps b :
  htmlSafeSet b = true ->
  scan_step (at_step stepInString ps) b
  = (at_step stepInString ps, scanContinue).
Proof. intros H. destruct b; try discriminate H; reflexivity. Qed.

Lemma high_byte_valid ps b :
  high b = true ->
  scan_step (at_step stepInString ps) b
  = (at_step stepInString ps, scanContinue).
Proof. intros H. destruct b; try discriminate H; reflexivity. Qed.

Lemma escape_ascii_valid ps b :
  high b = false -> htmlSafeSet b = false ->
  checkValid_loop (at_step stepInString ps) (escape_ascii b)
  = Some (at_step stepInString ps).
Proof.
  intros H1 H2. destruct b; try discriminate H1; try discriminate H2;
    reflexivity.
Qed.

Lemma bytes_valid (P : byte -> bool) ps l :
  (forall b, P b = true ->
             scan_step (at_step stepInString ps) b
             = (at_step stepInString ps, scanContinue)) ->
  forallb P l = true ->
  checkValid_loop (at_step stepInString ps) l
  = Some (at_step stepInString ps).
Proof.
  intros HP. induction l as [| b l IH]; [reflexivity |].
  cbn [forallb checkValid_loop]. intros H. apply andb_prop in H as [Hb Hl].
  rewrite (HP b Hb). cbn [is_scanError]. now apply IH.
Qed.

(** The second byte of a sequence that [first] accepts is a high byte. *)
Lemma first_lo s0 sz lo hi :
  UTF8.first s0 = Some (sz, (lo, hi)) -> (128 <= lo)%N.
Proof.
  unfold UTF8.first.
  repeat match goal with
         | |- context [if ?c then _ else _] => destruct c
         end; intros E; inversion E; subst; lia.
Qed.

Lemma between_high lo hi b :
  (128 <= lo)%N -> UTF8.between lo hi b = true -> high b = true.
Proof.
  unfold UTF8.between, high, UTF8.RuneSelf. intros Hlo H.
  apply andb_prop in H as [H _]. apply N.leb_le in H.
  apply negb_true_iff, N.ltb_ge. lia.
Qed.

(** The bytes that [DecodeRune] consumes after a high byte are high bytes. *)
Lemma DecodeRune_high b rest :
  high b = true ->
  forallb high (firstn (snd (UTF8.DecodeRune (b :: rest))) (b :: rest)) = true.
Proof.
  intros Hb. unfold UTF8.DecodeRune.
  assert (One : forallb high (firstn 1 (b :: rest)) = true).
  { cbn [firstn forallb]. now rewrite Hb. }
  destruct (UTF8.first b) as [[sz [lo hi]] |] eqn:F; [| exact One].
  pose proof (first_lo _ _ _ _ F) as Hlo.
  destruct (List.length (b :: rest) <? sz)%nat; [exact One |].
  destruct rest as [| s1 r1]; [exact One |].
  destruct (UTF8.between lo hi s1) eqn:B1; cbn [negb]; [| exact One].
  apply (between_high _ _ _ Hlo) in B1.
  destruct (sz <=? 2)%nat.
  { cbn [snd firstn forallb]. now rewrite Hb, B1. }
  destruct r1 as [| s2 r2]; [exact One |].
  destruct (UTF8.between 128 191 s2) eqn:B2; cbn [negb]; [| exact One].
  apply between_high in B2; [| lia].
  destruct (sz <=? 3)%nat.
  { cbn [snd firstn forallb]. now rewrite Hb, B1, B2. }
  destruct r2 as [| s3 r3]; [exact One |].
  destruct (UTF8.between 128 191 s3) eqn:B3; cbn [negb]; [| exact One].
  apply between_high in B3; [| lia].
  cbn [snd firstn forallb]. now rewrite Hb, B1, B2, B3.
Qed.

(** The scanner reads what [encodeState.string] writes between the quotes
    without leaving the string literal. *)
Lemma string_loop_valid ps : forall fuel s,
  checkValid_loop (at_step stepInString ps) (string_loop fuel s)
  = Some (at_step stepInString ps).
Proof.
  induction fuel as [| fuel IH]; intros s; [reflexivity |].
  cbn [string_loop]. destruct s as [| b rest]; [reflexivity |].
  destruct (Byte.to_N b <? UTF8.RuneSelf)%N eqn:A.
  - rewrite CompactFacts.checkValid_loop_app.
    assert (H : checkValid_loop (at_step stepInString ps)
                  (if htmlSafeSet b then [b] else escape_ascii b)
                = Some (at_step stepInString ps)).
    { destruct (htmlSafeSet b) eqn:S.
      - cbn [checkValid_loop]. now rewrite (safe_byte_valid ps b S).
      - apply escape_ascii_valid; [| exact S]. unfold high. now rewrite A. }
    rewrite H. apply IH.
  - assert (Hb : high b = true) by (unfold high; now rewrite A).
    pose proof (DecodeRune_high b rest Hb) as Hh.
    destruct (UTF8.DecodeRune (b :: rest)) as [c size]. cbn [snd] in Hh.
    destruct ((c =? UTF8.RuneError)%N && (size =? 1)%nat).
    { rewrite CompactFacts.checkValid_loop_app.
      replace (checkValid_loop (at_step stepInString ps)
                 [x5c; x75; x66; x66; x66; x64])
        with (Some (at_step stepInString ps)) by reflexivity.
      apply IH. }
    destruct ((c =? 8232)%N || (c =? 8233)%N) eqn:L.
    { rewrite CompactFacts.checkValid_loop_app.
      assert (H : checkValid_loop (at_step stepInString ps)
                    [x5c; x75; x32; x30; x32; JSON.hex (N.land c 15)]
                  = Some (at_step stepInString ps)).
      { apply orb_prop in L as [L | L]; apply N.eqb_eq in L; subst c;
          reflexivity. }
      rewrite H. apply IH. }
    rewrite CompactFacts.checkValid_loop_app.
    rewrite (bytes_valid high ps _ (high_byte_valid ps) Hh). apply IH.
Qed.
(** A string as the encoder writes it is read as one string literal. *)
Lemma encode_string_valid ps f s :
  begins_string f = true ->
  checkValid_loop (at_step f ps) (encode_string s)
  = Some (at_step stepEndValue ps).
Proof.
  intros Hf. unfold encode_string.
  assert (Open : scan_step (at_step f ps) x22
                 = (at_step stepInString ps, scanBeginLiteral)).
  { destruct f; try discriminate Hf; reflexivity. }
  cbn [checkValid_loop]. rewrite Open. cbn [is_scanError].
  rewrite CompactFacts.checkValid_loop_app, string_loop_valid. reflexivity.
Qed.

Lemma enc_safe_nat (n : nat) :
  (n < 64)%nat -> htmlSafeSet (Base64.enc (N.of_nat n)) = true.
Proof.
  intros H. do 64 (destruct n as [| n]; [reflexivity |]). lia.
Qed.

Lemma enc_safe (i : N) : (i < 64)%N -> htmlSafeSet (Base64.enc i) = true.
Proof.
  intros H. rewrite <- (N2Nat.id i). apply enc_safe_nat. lia.
Qed.

(** The base64 text of a byte string has no byte that a JSON string must
    escape. *)
Lemma EncodeToString_safe (src : list byte) :
  forallb htmlSafeSet (Base64.EncodeToString src) = true.
Proof.
  induction src as [| a | a b | a b c rest IH] using Base64Facts.list_ind3;
    cbn [Base64.EncodeToString forallb];
    rewrite ?enc_safe
      by (apply Base64Facts.sextet_lt || apply Base64Facts.mod64_lt);
    try reflexivity.
  exact IH.
Qed.

(** A byte slice as the encoder writes it is read as one string literal. *)
Lemma encodeByteSlice_valid ps f b :
  begins_string f = true ->
  checkValid_loop (at_step f ps) (encodeByteSlice b)
  = Some (at_step stepEndValue ps).
Proof.
  intros Hf. unfold encodeByteSlice.
  assert (Open : scan_step (at_step f ps) x22
                 = (at_step stepInString ps, scanBeginLiteral)).
  { destruct f; try discriminate Hf; reflexivity. }
  cbn [checkValid_loop]. rewrite Open. cbn [is_scanError].
  rewrite CompactFacts.checkValid_loop_app.
  rewrite (bytes_valid htmlSafeSet ps _ (safe_byte_valid ps)
             (EncodeToString_safe b)).
  reflexivity.
Qed.

Lemma encode_member_reads ps kv : reads_member ps (encode_member kv).
Proof.
  intros f Hf. unfold encode_member.
  rewrite CompactFacts.checkValid_loop_app.
  rewrite encode_string_valid by (destruct f; try discriminate Hf; reflexivity).
  cbn [checkValid_loop].
  change (scan_step (at_step stepEndValue (parseObjectKey :: ps)) x3a)
    with (at_step stepBeginValue (parseObjectValue :: ps), scanObjectKey).
  cbn [is_scanError]. now apply encode_string_valid.
Qed.

Lemma encode_field_reads ps name v :
  forallb htmlSafeSet (list_byte_of_string name) = true ->
  reads_value ps v ->
  reads_member ps (encode_field (name, v)).
Proof.
  intros Hn Hv f Hf. unfold encode_field. cbn [fst snd].
  assert (Open : scan_step (at_step f (parseObjectKey :: ps)) x22
                 = (at_step stepInString (parseObjectKey :: ps),
                    scanBeginLiteral)).
  { destruct f; try discriminate Hf; reflexivity. }
  cbn [checkValid_loop]. rewrite Open. cbn [is_scanError].
  rewrite CompactFacts.checkValid_loop_app.
  rewrite (bytes_valid htmlSafeSet _ _ (safe_byte_valid _) Hn).
  cbn [checkValid_loop].
  change (scan_step (at_step stepInString (parseObjectKey :: ps)) x22)
    with (at_step stepEndValue (parseObjectKey :: ps), scanContinue).
  cbn [is_scanError].
  change (scan_step (at_step stepEndValue (parseObjectKey :: ps)) x3a)
    with (at_step stepBeginValue (parseObjectValue :: ps), scanObjectKey).
  cbn [is_scanError]. exact Hv.
Qed.

(** The members of an object, separated by commas. *)
Lemma members_valid ps : forall parts p f,
  Forall (reads_member ps) (p :: parts) ->
  begins_key f = true ->
  checkValid_loop (at_step f (parseObjectKey :: ps)) (join x2c (p :: parts))
  = Some (at_step stepEndValue (parseObjectValue :: ps)).
Proof.
  induction parts as [| q parts IH]; intros p f H Hf.
  - cbn [join]. inversion H; subst. now apply H2.
  - inversion H as [| ? ? Hp Hrest]; subst.
    change (join x2c (p :: q :: parts))
      with (p ++ x2c :: join x2c (q :: parts)).
    rewrite CompactFacts.checkValid_loop_app, (Hp f Hf).
    cbn [checkValid_loop].
    change (scan_step (at_step stepEndValue (parseObjectValue :: ps)) x2c)
      with (at_step stepBeginString (parseObjectKey :: ps), scanObjectValue).
    cbn [is_scanError]. now apply IH.
Qed.

(** An object with at least one member, below the nesting limit. *)
Lemma object_valid ps f p parts :
  (f = stepBeginValue \/ f = stepBeginValueOrEmpty) ->
  (N.of_nat (Datatypes.S (List.length ps)) <=? maxNestingDepth)%N = true ->
  Forall (reads_member ps) (p :: parts) ->
  checkValid_loop (at_step f ps) (x7b :: join x2c (p :: parts) ++ [x7d])
  = Some (popParseState (at_step stepEndValue (parseObjectValue :: ps))).
Proof.
  intros Hf D H.
  assert (Open : scan_step (at_step f ps) x7b
                 = (at_step stepBeginStringOrEmpty (parseObjectKey :: ps),
                    scanBeginObject)).
  { destruct Hf as [-> | ->]; cbn -[N.leb N.of_nat maxNestingDepth];
      unfold pushParseState; cbn -[N.leb N.of_nat maxNestingDepth];
      rewrite D; reflexivity. }
  cbn [checkValid_loop]. rewrite Open. cbn [is_scanError].
  rewrite CompactFacts.checkValid_loop_app.
  rewrite (members_valid ps parts p stepBeginStringOrEmpty H eq_refl).
  cbn [checkValid_loop].
  change (scan_step (at_step stepEndValue (parseObjectValue :: ps)) x7d)
    with (popParseState (at_step stepEndValue (parseObjectValue :: ps)),
          scanEndObject).
  reflexivity.
Qed.

Lemma sort_by_key_cons kv m : exists kv' m', sort_by_key (kv :: m) = kv' :: m'.
Proof.
  cbn [sort_by_key fold_right]. fold (sort_by_key m).
  destruct (sort_by_key m) as [| x r]; cbn [insert_by_key]; [eauto |].
  destruct (fst kv <=? fst x)%string; eauto.
Qed.

(** A map that is not empty is read as one value of the enclosing object. *)
Lemma encode_map_reads kv m : reads_value [] (encode_map (kv :: m)).
Proof.
  unfold reads_value, encode_map.
  destruct (sort_by_key_cons kv m) as (kv' & m' & ->).
  cbn [map].
  rewrite (object_valid [parseObjectValue] stepBeginValue); [reflexivity | | |].
  - now left.
  - reflexivity.
  - change (encode_member kv' :: map encode_member m')
      with (map encode_member (kv' :: m')).
    apply Forall_forall. intros p Hp. apply in_map_iff in Hp as (x & <- & _).
    apply encode_member_reads.
Qed.

(** ** The events handed to the pipeline *)

Lemma Marshal_BodyBytes_valid topic body metadata :
  exists eventBytes,
    Emitter.Marshal {| Emitter.Topic := topic;
                       Emitter.Body := Emitter.BodyBytes body;
                       Emitter.Metadata := metadata |} = inr eventBytes
    /\ Valid eventBytes = true.
Proof.
  unfold Emitter.Marshal, Emitter.event_fields.
  cbn [Emitter.Body Emitter.encode_Body Emitter.Topic Emitter.Metadata].
  eexists. split; [reflexivity |].
  unfold encode_struct, Valid. cbn [map].
  change reset with (at_step stepBeginValue []).
  rewrite (object_valid [] stepBeginValue); [reflexivity | now left | reflexivity |].
  constructor; [| constructor].
  - apply encode_field_reads; [reflexivity |].
    now apply encode_string_valid.
  - apply encode_field_reads; [reflexivity |].
    now apply encodeByteSlice_valid.
  - destruct metadata as [| kv m]; cbn [Emitter.metadata_field map];
      constructor; [| constructor].
    apply encode_field_reads; [reflexivity | apply encode_map_reads].
Qed.

Section Run.

Variable TLSConfig : Type.
Variable tls_Config : Type.
Variable Pipeline : Type.
Variable dispatch : list byte -> Pipeline -> option error * Pipeline.

Import Emitter Run.

Local Abbreviation EventListener := (EventListener TLSConfig).
Local Abbreviation World := (World TLSConfig tls_Config).
Local Abbreviation effect := (effect tls_Config).
Local Abbreviation onMessage :=
  (@Emitter.onMessage TLSConfig tls_Config Pipeline dispatch).
Local Abbreviation deliver :=
  (@Emitter.deliver TLSConfig tls_Config Pipeline dispatch).
Local Abbreviation StartListening :=
  (@Emitter.StartListening TLSConfig tls_Config Pipeline dispatch).

Implicit Types (el : EventListener) (w : World) (p : Pipeline)
         (m : Message) (t : N) (tr : list effect).

Lemma dispatched_none tr :
  Forall (fun e => is_Dispatch e = false) tr -> dispatched tr = [].
Proof.
  induction 1 as [| e tr He _ IH]; [reflexivity |].
  destruct e; try discriminate He; exact IH.
Qed.

Lemma onMessage_dispatched el m t p b :
  In b (dispatched (fst (onMessage el m t p))) ->
  Marshal (normalize (EmitterEventSource_ el) m) = inr b.
Proof.
  destruct (EmitterFacts.onMessage_cases TLSConfig tls_Config Pipeline
              dispatch el m t p)
    as [(e & M & E) | [(b' & e & p' & M & D & E) | (b' & p' & M & D & E)]];
    rewrite E, M; cbn; intros H; try tauto;
    destruct H as [<- | []]; reflexivity.
Qed.

Lemma deliver_dispatched el b : forall msgs p,
  In b (dispatched (fst (deliver el msgs p))) ->
  exists mt, In mt msgs
             /\ Marshal (normalize (EmitterEventSource_ el) (fst mt)) = inr b.
Proof.
  induction msgs as [| [m t] msgs IH]; intros p; [intros [] |].
  rewrite (RunFacts.deliver_cons TLSConfig tls_Config Pipeline dispatch).
  cbn [fst]. rewrite RunFacts.dispatched_app. intros H.
  apply in_app_or in H as [H | H].
  - exists (m, t). split; [now left |]. cbn [fst].
    now apply (onMessage_dispatched el m t p).
  - destruct (IH _ H) as (mt & I & M). exists mt. split; [now right | exact M].
Qed.

Lemma not_subscribed_fails el w p :
  subscribed el w = false -> fst (fst (StartListening el w p)) <> None.
Proof.
  unfold Emitter.StartListening, subscribed.
  destruct (client_options w (EmitterEventSource_ el)) as [e | options];
    [cbn; discriminate |].
  destruct (common_Connect w _ _) as [[e |] ctr]; cbn [fst snd];
    [discriminate |].
  destruct (client_Subscribe w _ _) as [e |]; cbn [fst snd];
    [discriminate |].
  discriminate.
Qed.

Lemma StartListening_dispatched el w p :
  dispatched (snd (fst (StartListening el w p)))
  = if subscribed el w
    then dispatched (fst (deliver el (inbound w) p))
    else [].
Proof.
  destruct (subscribed el w) eqn:S.
  - destruct (RunFacts.StartListening_shape TLSConfig tls_Config Pipeline
                dispatch el w p S) as (pre & E & F).
    rewrite E. cbn [fst snd]. rewrite !RunFacts.dispatched_app.
    rewrite (dispatched_none pre).
    + cbn [app dispatched].
      destruct (client_Unsubscribe w _ _); cbn [dispatched];
        now rewrite app_nil_r.
    + eapply Forall_impl; [| exact F]. now intros [].
  - apply dispatched_none.
    destruct (RunFacts.StartListening_failed TLSConfig tls_Config Pipeline
                dispatch el w p (not_subscribed_fails el w p S)) as [F _].
    eapply Forall_impl; [| exact F]. now intros [].
Qed.

(** X15: [dispatch] is given nothing but the serialised events of inbound
    messages: every byte string that a run hands to it is what
    [json.Marshal] returns for the event of a message that the broker
    delivered, and the run is one that returns nil; a run that returns an
    error hands over nothing. *)
Theorem dispatch_gets_only_inbound_events el w p :
  (forall b,
      In b (dispatched (snd (fst (StartListening el w p)))) ->
      fst (fst (StartListening el w p)) = None
      /\ exists mt,
          In mt (inbound w)
          /\ Marshal (normalize (EmitterEventSource_ el) (fst mt)) = inr b)
  /\ (fst (fst (StartListening el w p)) <> None ->
      dispatched (snd (fst (StartListening el w p))) = []).
Proof.
  split.
  - intros b H. rewrite StartListening_dispatched in H.
    destruct (subscribed el w) eqn:S; [| destruct H]. split.
    + destruct (RunFacts.StartListening_shape TLSConfig tls_Config Pipeline
                  dispatch el w p S) as (pre & E & _).
      now rewrite E.
    + now apply deliver_dispatched in H.
  - intros H. rewrite StartListening_dispatched.
    destruct (subscribed el w) eqn:S; [| reflexivity].
    destruct (RunFacts.StartListening_shape TLSConfig tls_Config Pipeline
                dispatch el w p S) as (pre & E & _).
    rewrite E in H. now contradiction H.
Qed.

(** X16: with the JSON-body flag off every byte string handed to
    [dispatch] is a valid JSON text, whatever the payloads, the topics and
    the metadata are. *)
Theorem flag_off_dispatches_valid_json el w p :
  JSONBody (EmitterEventSource_ el) = false ->
  Forall (fun eventBytes => JSON.Valid eventBytes = true)
         (dispatched (snd (fst (StartListening el w p)))).
Proof.
  intros HJ. apply Forall_forall. intros b H.
  rewrite StartListening_dispatched in H.
  destruct (subscribed el w); [| destruct H].
  apply deliver_dispatched in H as ([m t] & _ & M).
  unfold normalize in M. rewrite HJ in M. cbn [fst] in M.
  destruct (Marshal_BodyBytes_valid (msg_Topic m) (msg_Payload m)
              (es_Metadata (EmitterEventSource_ el))) as (b' & M' & V).
  congruence.
Qed.

End Run.

(** ** The properties on sample runs *)

Lemma dispatch_gets_only_inbound_events_witness :
  (forall b,
      In b (Emitter.dispatched
              (snd (fst (Emitter.StartListening Sample.accept Sample.el
                           (Sample.world Run.three) 0)))) ->
      fst (fst (Emitter.StartListening Sample.accept Sample.el
                  (Sample.world Run.three) 0)) = None
      /\ exists mt,
          In mt Run.three
          /\ Emitter.Marshal (Emitter.normalize Sample.es (fst mt)) = inr b)
  /\ (fst (fst (Emitter.StartListening Sample.accept Sample.el
                  Run.world_no_channel 0)) <> None ->
      Emitter.dispatched
        (snd (fst (Emitter.StartListening Sample.accept Sample.el
                     Run.world_no_channel 0))) = [])
  /\ In (encode_struct
           [("topic", encode_string "c");
            ("body", encodeByteSlice (list_byte_of_string "hello"))])
        (Emitter.dispatched
           (snd (fst (Emitter.StartListening Sample.accept Sample.el
                        (Sample.world Run.three) 0))))
  /\ fst (fst (Emitter.StartListening Sample.accept Sample.el
                 Run.world_no_channel 0)) <> None.
Proof.
  split.
  { exact (proj1 (dispatch_gets_only_inbound_events unit unit nat
                    Sample.accept Sample.el (Sample.world Run.three) 0)). }
  split.
  { exact (proj2 (dispatch_gets_only_inbound_events unit unit nat
                    Sample.accept Sample.el Run.world_no_channel 0)). }
  split; [right; left; reflexivity | discriminate].
Defined.

Lemma flag_off_dispatches_valid_json_witness :
  Emitter.JSONBody (Emitter.EmitterEventSource_ Sample.el_ab) = false
  /\ Forall (fun eventBytes => JSON.Valid eventBytes = true)
            (Emitter.dispatched
               (snd (fst (Emitter.StartListening Sample.accept Sample.el_ab
                            (Sample.world Run.three) 0)))).
Proof.
  split; [reflexivity |].
  exact (flag_off_dispatches_valid_json unit unit nat Sample.accept
           Sample.el_ab (Sample.world Run.three) 0 eq_refl).
Defined.

End WireFacts.
